(** * lock-picker: the seeded code generator and the lock reducer

    A shallow embedding of the game logic of [src/main.js] (the JavaScript
    build, module [Js]) and of [src/unnamed/part_000] (the TypeScript
    variant, module [Ts]): class [SeededRandom] and the state-changing
    methods of class [LockPickerGame].

    Conventions of the embedding.
    - A JavaScript number that holds an integer is a [Z]; [%] is the
      truncating remainder [Z.rem] (sign of the dividend), as in
      ECMAScript.  The quotient [seed / 233280] is the exact rational
      ([Q]) and [Math.floor] is [Qfloor].
    - Limits of the integer model.  The code computes in IEEE doubles.
      [seed * 9301 + 49297] is computed without rounding when
      [|seed * 9301| + 49297 <= 2^53] ([exact_doubles], seeds up to
      968411918577 in absolute value); after the first draw the seed is
      below 233280 in absolute value and stays in that domain.  Above
      it the doubles round (the default seed [Date.now()] is above it)
      and, from about 1.9e304, overflow, so the model says nothing of
      the first draw for such seeds.  [Math.floor(this.next() * max)]
      rounds the quotient and the product before taking the floor: for
      [max = 10], the only argument the program passes, it equals the
      floor of the exact product for every seed [next()] can leave; for
      other [max] it can differ by one.
    - [arr[i]] is [at_ arr i : option _], [None] standing for
      [undefined]; [a === b] on two such reads is equality of options.
    - Methods mutate [this] and call the DOM and the audio manager: they
      are computations in the monad [M] (state of the game object, log of
      the calls made to the collaborators).  Callbacks deferred with
      [setTimeout] only touch the page and are left out. *)

From Stdlib Require Import ZArith QArith Qround Lia String.
From stdpp Require Import base tactics numbers option list.

Local Open Scope Z_scope.

(** ** class SeededRandom *)

Module SeededRandom.

Record t := mk { seed : Z }.

(** [next()]: [this.seed = (this.seed * 9301 + 49297) % 233280;
    return this.seed / 233280].  Integer arithmetic stands for the
    doubles of the code: exact for the seeds of [exact_doubles]. *)
Definition next (r : t) : Q * t :=
  let seed' := (seed r * 9301 + 49297) `rem` 233280 in
  (seed' # 233280, mk seed').

(** [nextInt(max)]: [Math.floor(this.next() * max)].  The floor of
    the exact product stands for the floor of the rounded one: the two
    agree for [max = 10], the argument of every call in the program. *)
Definition nextInt (max : Z) (r : t) : Z * t :=
  let '(x, r') := next r in
  (Qfloor (x * inject_Z max), r').

End SeededRandom.

(** ** The game object and its collaborators *)

Record LockPickerGame := mkGame {
  slots : list Z;
  currentSlot : Z;
  targetCode : list Z;
  correctSlots : list bool;
  unlocked : bool;
  random : SeededRandom.t
}.

Definition charset : string := "0123456789".
Definition charset_length : Z := Z.of_nat (String.length charset).

Inductive sound := tick | correct | unlock_sound.

(** Calls made to the presentation and audio collaborators. *)
Inductive effect :=
| Play (s : sound)                          (* audioManager.play(name) *)
| Highlight (active : Z)                    (* updateSlotHighlights() *)
| MarkCorrect (slot : Z) (on : bool)        (* slotElements[slot].classList.add/remove('correct') *)
| AnimateDigit (slot oldValue newValue : Z) (* animateDigitChange(slot, old, new) *)
| ShowDigits (ds : list Z)                  (* updateDisplay() writes every digit *)
| SafeAnimation (name : string)             (* safeElement.style.animation = ... *)
| SafeUnlocked (on : bool)                  (* safeElement.classList.add/remove('unlocked') *)
| ShowLockpicker                            (* reset(): back to the lock picker screen *)
| LogTarget (code : list Z).                (* console.log('Target code:', ...) *)

(** [arr[i]] for an integer [i]: [undefined] outside [0 .. length-1]. *)
Definition at_ {A} (arr : list A) (i : Z) : option A :=
  if i <? 0 then None else arr !! Z.to_nat i.

(** [a === b] on two array reads. *)
Definition strict_eq (a b : option Z) : bool :=
  match a, b with
  | Some x, Some y => x =? y
  | None, None => true
  | _, _ => false
  end.

(** [arr[i] = v] for [0 <= i < arr.length].  (An assignment past the end
    would grow a JavaScript array; lemmas [Js_reachable_wf] and
    [Ts_reachable_wf] show that the game never indexes out of range, so
    that case is left as stdpp's insert has it: no change.) *)
Definition store {A} (arr : list A) (i : Z) (v : A) : list A :=
  if i <? 0 then arr else <[Z.to_nat i := v]> arr.

(** [arr.every((x, index) => p(index, x))]. *)
Fixpoint every_from {A} (p : nat -> A -> bool) (i : nat) (arr : list A) : bool :=
  match arr with
  | [] => true
  | x :: rest => p i x && every_from p (S i) rest
  end.

Definition every {A} (p : nat -> A -> bool) (arr : list A) : bool :=
  every_from p 0 arr.

(** Field updates of [this]. *)
Definition set_slots v g :=
  mkGame v (currentSlot g) (targetCode g) (correctSlots g) (unlocked g) (random g).
Definition set_currentSlot v g :=
  mkGame (slots g) v (targetCode g) (correctSlots g) (unlocked g) (random g).
Definition set_targetCode v g :=
  mkGame (slots g) (currentSlot g) v (correctSlots g) (unlocked g) (random g).
Definition set_correctSlots v g :=
  mkGame (slots g) (currentSlot g) (targetCode g) v (unlocked g) (random g).
Definition set_unlocked v g :=
  mkGame (slots g) (currentSlot g) (targetCode g) (correctSlots g) v (random g).
Definition set_random v g :=
  mkGame (slots g) (currentSlot g) (targetCode g) (correctSlots g) (unlocked g) v.

(** ** The method monad: state of [this], log of collaborator calls *)

Definition M (A : Type) : Type := LockPickerGame -> A * LockPickerGame * list effect.

#[export] Instance M_ret : MRet M := λ A a g, (a, g, []).
#[export] Instance M_bind : MBind M := λ A B k m g,
  let '(a, g1, o1) := m g in
  let '(b, g2, o2) := k a g1 in
  (b, g2, o1 ++ o2).

Definition get : M LockPickerGame := λ g, (g, g, []).
Definition modify (f : LockPickerGame -> LockPickerGame) : M unit := λ g, (tt, f g, []).
Definition emit (e : effect) : M unit := λ g, (tt, g, [e]).
Definition skip : M unit := mret tt.

(** The state of [this] after running a method. *)
Definition exec {A} (m : M A) (g : LockPickerGame) : LockPickerGame := (m g).1.2.

(** ** src/main.js: class LockPickerGame *)

Module Js.

Definition play (s : sound) : M unit := emit (Play s).

Definition updateSlotHighlights : M unit :=
  this ← get; emit (Highlight (currentSlot this)).

Definition updateDisplay : M unit :=
  this ← get; emit (ShowDigits (slots this));; updateSlotHighlights.

Definition animateDigitChange (slotIndex oldValue newValue : Z) : M unit :=
  emit (AnimateDigit slotIndex oldValue newValue).

Definition generateTargetCode : M unit :=
  this ← get;
  let '(c0, r0) := SeededRandom.nextInt charset_length (random this) in
  let '(c1, r1) := SeededRandom.nextInt charset_length r0 in
  let '(c2, r2) := SeededRandom.nextInt charset_length r1 in
  modify (set_random r2);;
  modify (set_targetCode [c0; c1; c2]);;
  emit (LogTarget [c0; c1; c2]).

Definition selectSlot (slotIndex : Z) : M unit :=
  this ← get;
  if unlocked this || (slotIndex <? 0) || (slotIndex >=? 3) then skip else
  modify (set_currentSlot slotIndex);;
  updateSlotHighlights;;
  play tick.

Definition changeDigit (direction : Z) : M unit :=
  this ← get;
  if unlocked this then skip else
  match at_ (slots this) (currentSlot this) with
  | None => skip (* undefined: not reached, see [store] *)
  | Some oldValue =>
    let newValue := (oldValue + direction + charset_length) `rem` charset_length in
    modify (λ this, set_slots (store (slots this) (currentSlot this) newValue) this);;
    (* Remove correct status when changing a previously correct slot *)
    modify (λ this, set_correctSlots
      (store (correctSlots this) (currentSlot this) false) this);;
    emit (MarkCorrect (currentSlot this) false);;
    animateDigitChange (currentSlot this) oldValue newValue;;
    (* Play correct sound if digit matches target, otherwise tick *)
    this ← get;
    if strict_eq (at_ (slots this) (currentSlot this))
                 (at_ (targetCode this) (currentSlot this))
    then play correct else play tick
  end.

Definition unlock : M unit :=
  modify (set_unlocked true);;
  play unlock_sound;;
  emit (SafeAnimation "buzz").

Definition confirmSlot : M unit :=
  this ← get;
  if unlocked this then skip else
  let isCorrect := strict_eq (at_ (slots this) (currentSlot this))
                             (at_ (targetCode this) (currentSlot this)) in
  modify (λ this, set_correctSlots
    (store (correctSlots this) (currentSlot this) isCorrect) this);;
  (if isCorrect then
     play correct;;
     emit (MarkCorrect (currentSlot this) true);;
     (* Move to next slot if this one is correct *)
     if currentSlot this <? 2 then
       modify (λ this, set_currentSlot (currentSlot this + 1) this);;
       updateSlotHighlights
     else skip
   else emit (MarkCorrect (currentSlot this) false));;
  (* Check if all slots are correct *)
  this ← get;
  if forallb id (correctSlots this) then unlock else skip.

Definition checkCombination : M unit :=
  this ← get;
  if unlocked this then skip else
  let isCorrect :=
    every (λ index slot, strict_eq (Some slot) (targetCode this !! index))
          (slots this) in
  if isCorrect then unlock else emit (SafeAnimation "shake").

Definition reset : M unit :=
  modify (set_slots [0; 0; 0]);;
  modify (set_currentSlot 0);;
  modify (set_correctSlots [false; false; false]);;
  modify (set_unlocked false);;
  (* Generate new target code *)
  generateTargetCode;;
  emit (SafeUnlocked false);;
  emit (MarkCorrect 0 false);; emit (MarkCorrect 1 false);; emit (MarkCorrect 2 false);;
  emit ShowLockpicker;;
  updateDisplay.

(** [new LockPickerGame()] with the seed read from the page address (or
    the clock): the field initialisers of the constructor ... *)
Definition constructor (seed : Z) : LockPickerGame :=
  mkGame [0; 0; 0] 0 [] [false; false; false] false (SeededRandom.mk seed).

(** ... followed by [init()], after which the handlers are wired. *)
Definition init : M unit :=
  generateTargetCode;;
  updateDisplay.

Definition new_game (seed : Z) : LockPickerGame := exec init (constructor seed).

End Js.

(** ** src/unnamed/part_000: the TypeScript class LockPickerGame *)

Module Ts.

Definition play (s : sound) : M unit := emit (Play s).

Definition updateSlotHighlights : M unit :=
  this ← get; emit (Highlight (currentSlot this)).

Definition updateDisplay : M unit :=
  this ← get; emit (ShowDigits (slots this));; updateSlotHighlights.

Definition animateDigitChange (slotIndex oldValue newValue : Z) : M unit :=
  emit (AnimateDigit slotIndex oldValue newValue).

Definition generateTargetCode : M unit :=
  this ← get;
  let '(c0, r0) := SeededRandom.nextInt charset_length (random this) in
  let '(c1, r1) := SeededRandom.nextInt charset_length r0 in
  let '(c2, r2) := SeededRandom.nextInt charset_length r1 in
  modify (set_random r2);;
  modify (set_targetCode [c0; c1; c2]);;
  emit (LogTarget [c0; c1; c2]).

Definition selectSlot (slotIndex : Z) : M unit :=
  this ← get;
  if unlocked this || (slotIndex <? 0) || (slotIndex >=? 3) then skip else
  modify (set_currentSlot slotIndex);;
  updateSlotHighlights;;
  play tick.

(** No flag is cleared here, and the sound is always the tick. *)
Definition changeDigit (direction : Z) : M unit :=
  this ← get;
  if unlocked this then skip else
  match at_ (slots this) (currentSlot this) with
  | None => skip (* undefined: not reached, see [store] *)
  | Some oldValue =>
    let newValue := (oldValue + direction + charset_length) `rem` charset_length in
    modify (λ this, set_slots (store (slots this) (currentSlot this) newValue) this);;
    animateDigitChange (currentSlot this) oldValue newValue;;
    play tick
  end.

Definition unlock : M unit :=
  modify (set_unlocked true);;
  play unlock_sound;;
  emit (SafeUnlocked true).

(** The active slot stays where it is. *)
Definition confirmSlot : M unit :=
  this ← get;
  if unlocked this then skip else
  let isCorrect := strict_eq (at_ (slots this) (currentSlot this))
                             (at_ (targetCode this) (currentSlot this)) in
  modify (λ this, set_correctSlots
    (store (correctSlots this) (currentSlot this) isCorrect) this);;
  (if isCorrect then
     play correct;;
     emit (MarkCorrect (currentSlot this) true)
   else emit (MarkCorrect (currentSlot this) false));;
  (* Check if all slots are correct *)
  this ← get;
  if forallb id (correctSlots this) then unlock else skip.

Definition reset : M unit :=
  modify (set_slots [0; 0; 0]);;
  modify (set_currentSlot 0);;
  modify (set_correctSlots [false; false; false]);;
  modify (set_unlocked false);;
  (* Generate new target code *)
  generateTargetCode;;
  emit (SafeUnlocked false);;
  emit (MarkCorrect 0 false);; emit (MarkCorrect 1 false);; emit (MarkCorrect 2 false);;
  emit ShowLockpicker;;
  updateDisplay.

Definition constructor (seed : Z) : LockPickerGame :=
  mkGame [0; 0; 0] 0 [] [false; false; false] false (SeededRandom.mk seed).

Definition init : M unit :=
  generateTargetCode;;
  updateDisplay.

Definition new_game (seed : Z) : LockPickerGame := exec init (constructor seed).

End Ts.

(** ** Input events and reachable states *)

(** The data model's shape: three digits, three flags, three target
    digits, and an active slot among them. *)
Definition wf (g : LockPickerGame) : Prop :=
  length (slots g) = 3%nat ∧ length (correctSlots g) = 3%nat ∧
  length (targetCode g) = 3%nat ∧ 0 ≤ currentSlot g < 3.

Definition locked (g : LockPickerGame) : Prop := unlocked g = false.

(** The callers pass [1] or [-1] only (the adapters' [onDigitChange(1)]
    and [onDigitChange(-1)]; the TypeScript parameter has type [1 | -1]). *)
Definition is_direction (d : Z) : Prop := d = 1 ∨ d = -1.

Module JsEvents.

(** What [setupInputHandlers] and [setupUI] wire to the game. *)
Inductive event :=
| SelectSlot (slotIndex : Z)
| ChangeDigit (direction : Z)
| Confirm
| CheckCombination
| Reset.

Definition handle (e : event) : M unit :=
  match e with
  | SelectSlot i => Js.selectSlot i
  | ChangeDigit d => Js.changeDigit d
  | Confirm => Js.confirmSlot
  | CheckCombination => Js.checkCombination
  | Reset => Js.reset
  end.

Definition valid (e : event) : Prop :=
  match e with ChangeDigit d => is_direction d | _ => True end.

Definition run (es : list event) (g : LockPickerGame) : LockPickerGame :=
  foldl (λ g e, exec (handle e) g) g es.

Inductive reachable (seed : Z) : LockPickerGame → Prop :=
| reach_new : reachable seed (Js.new_game seed)
| reach_step g e :
    reachable seed g → valid e → reachable seed (exec (handle e) g).

End JsEvents.

Module TsEvents.

Inductive event :=
| SelectSlot (slotIndex : Z)
| ChangeDigit (direction : Z)
| Confirm
| Reset.

Definition handle (e : event) : M unit :=
  match e with
  | SelectSlot i => Ts.selectSlot i
  | ChangeDigit d => Ts.changeDigit d
  | Confirm => Ts.confirmSlot
  | Reset => Ts.reset
  end.

Definition valid (e : event) : Prop :=
  match e with ChangeDigit d => is_direction d | _ => True end.

Definition run (es : list event) (g : LockPickerGame) : LockPickerGame :=
  foldl (λ g e, exec (handle e) g) g es.

Inductive reachable (seed : Z) : LockPickerGame → Prop :=
| reach_new : reachable seed (Ts.new_game seed)
| reach_step g e :
    reachable seed g → valid e → reachable seed (exec (handle e) g).

End TsEvents.

(** * Vocabulary of the statements *)

Definition dividend_nonneg (r : SeededRandom.t) : Prop :=
  0 ≤ SeededRandom.seed r * 9301 + 49297.

(** The seeds for which [next()] computes [seed * 9301 + 49297] in
    doubles without rounding: the product and the sum are integers of
    absolute value at most [2^53]. *)
Definition exact_doubles (r : SeededRandom.t) : Prop :=
  Z.abs (SeededRandom.seed r * 9301) + 49297 ≤ 2 ^ 53.

(** The three [nextInt(this.charset.length)] calls of
    [generateTargetCode], in slot order. *)
Definition draw3 (r : SeededRandom.t) : list Z * SeededRandom.t :=
  let '(c0, r0) := SeededRandom.nextInt charset_length r in
  let '(c1, r1) := SeededRandom.nextInt charset_length r0 in
  let '(c2, r2) := SeededRandom.nextInt charset_length r1 in
  ([c0; c1; c2], r2).

Definition in_alphabet (d : Z) : Prop := 0 ≤ d < charset_length.

(** The digit in the active slot equals the target digit of that slot. *)
Definition active_matches (g : LockPickerGame) : Prop :=
  at_ (slots g) (currentSlot g) = at_ (targetCode g) (currentSlot g).

(** Every slot other than the active one is flagged correct. *)
Definition others_correct (g : LockPickerGame) : Prop :=
  ∀ j, 0 ≤ j < 3 → j ≠ currentSlot g → at_ (correctSlots g) j = Some true.

(** [isCorrect] of [confirmSlot], read off the state before the call. *)
Definition is_correct (g : LockPickerGame) : bool :=
  strict_eq (at_ (slots g) (currentSlot g)) (at_ (targetCode g) (currentSlot g)).

(** A flag that is set vouches for its slot (JavaScript build, where
    [changeDigit] clears the flag of the slot it turns). *)
Definition flags_sound (g : LockPickerGame) : Prop :=
  ∀ i : nat, correctSlots g !! i = Some true → slots g !! i = targetCode g !! i.

Definition all_correct (g : LockPickerGame) : bool := forallb id (correctSlots g).

Definition Js_inv (g : LockPickerGame) : Prop :=
  wf g ∧ flags_sound g ∧
  (all_correct g = true → unlocked g = true) ∧
  (unlocked g = true → slots g = targetCode g).

Definition Ts_inv (g : LockPickerGame) : Prop :=
  wf g ∧ (unlocked g = true ↔ all_correct g = true).

(** The target code and the generator are touched by [reset] only. *)
Definition target_ok (g : LockPickerGame) : Prop :=
  Forall in_alphabet (targetCode g) ∧ dividend_nonneg (random g).

(** Dial 2-5-3 by selecting each slot, without confirming anything. *)
Definition dial_2_5_3 : list JsEvents.event :=
  replicate 2 (JsEvents.ChangeDigit 1) ++ [JsEvents.SelectSlot 1] ++
  replicate 5 (JsEvents.ChangeDigit 1) ++ [JsEvents.SelectSlot 2] ++
  replicate 3 (JsEvents.ChangeDigit 1).

(** Dial and confirm slot after slot (the confirm moves on by itself),
    up to the last confirm ... *)
Definition confirm_2_5_then_dial_3 : list JsEvents.event :=
  replicate 2 (JsEvents.ChangeDigit 1) ++ [JsEvents.Confirm] ++
  replicate 5 (JsEvents.ChangeDigit 1) ++ [JsEvents.Confirm] ++
  replicate 3 (JsEvents.ChangeDigit 1).

(** ... and with it. *)
Definition confirm_2_5_3 : list JsEvents.event :=
  confirm_2_5_then_dial_3 ++ [JsEvents.Confirm].

Definition new_1 : LockPickerGame := Js.new_game 1.
Definition dialled_1 : LockPickerGame := JsEvents.run dial_2_5_3 new_1.
Definition last_confirm_pending_1 : LockPickerGame :=
  JsEvents.run confirm_2_5_then_dial_3 new_1.
Definition opened_1 : LockPickerGame := JsEvents.run confirm_2_5_3 new_1.

(** The same session in the TypeScript variant, where the confirm does
    not move on: the player selects the next slot. *)
Definition Ts_confirm_2_5_then_dial_3 : list TsEvents.event :=
  replicate 2 (TsEvents.ChangeDigit 1) ++ [TsEvents.Confirm; TsEvents.SelectSlot 1] ++
  replicate 5 (TsEvents.ChangeDigit 1) ++ [TsEvents.Confirm; TsEvents.SelectSlot 2] ++
  replicate 3 (TsEvents.ChangeDigit 1).

Definition Ts_last_confirm_pending_1 : LockPickerGame :=
  TsEvents.run Ts_confirm_2_5_then_dial_3 (Ts.new_game 1).
Definition first_digit_dialled_1 : LockPickerGame :=
  JsEvents.run (replicate 2 (JsEvents.ChangeDigit 1)) new_1.

(** The digit arithmetic: one step up or down in Z/10. *)
Definition turn (direction d : Z) : Z :=
  (d + direction + charset_length) `rem` charset_length.

(** [g'] shows the digits of [g], has the same active slot, and that
    slot shows [d]. *)
Definition restored (g : LockPickerGame) (d : Z) (g' : LockPickerGame) : Prop :=
  slots g' = slots g ∧ currentSlot g' = currentSlot g ∧
  at_ (slots g') (currentSlot g') = Some d.

(** * The rest of the page: adapters, wiring, texts *)

(** The calls the game makes to its collaborators while running a method. *)
Definition calls {A} (m : M A) (g : LockPickerGame) : list effect := (m g).2.

(** ** Input adapters *)

(** What a handler of an input adapter calls, in order. *)
Inductive adapter_call :=
| PreventDefault                  (* event.preventDefault() *)
| LogReport (bytes : list Z)      (* console.log('HID Report:', bytes) *)
| OnSlotSelect (slot : Z)         (* this.onSlotSelect(slot) *)
| OnDigitChange (direction : Z)   (* this.onDigitChange(direction) *)
| OnConfirm.                      (* this.onConfirm() *)

Module KeyboardAdapter.

(** [handleKeyDown(event)]: the [switch] on [event.code]. *)
Definition handleKeyDown (code : string) : list adapter_call :=
  if String.eqb code "Digit1" || String.eqb code "KeyO" then
    [OnSlotSelect 0]
  else if String.eqb code "Digit2" || String.eqb code "KeyS" then
    [OnSlotSelect 1]
  else if String.eqb code "Digit3" || String.eqb code "KeyF" then
    [OnSlotSelect 2]
  else if String.eqb code "ArrowLeft" || String.eqb code "ArrowDown" then
    [PreventDefault; OnDigitChange (-1)]
  else if String.eqb code "ArrowRight" || String.eqb code "ArrowUp" then
    [PreventDefault; OnDigitChange 1]
  else if String.eqb code "Enter" || String.eqb code "Space" then
    [PreventDefault; OnConfirm]
  else [].

End KeyboardAdapter.

Module WebHIDAdapter.

(** [handleInputReport(event)] on the bytes of [event.data.buffer] (a
    [Uint8Array]: every byte is in 0..255).  [bytes[0]] of an empty
    report is [undefined], for which no comparison holds. *)
Definition handleInputReport (bytes : list Z) : list adapter_call :=
  LogReport bytes ::
  match bytes !! 0%nat with
  | None => []
  | Some b =>
    if b =? 1 then [OnDigitChange 1]            (* Volume Up *)
    else if b =? 2 then [OnDigitChange (-1)]    (* Volume Down *)
    else if b =? 3 then [OnConfirm]             (* Mute *)
    else if (b >=? 16) && (b <=? 18) then [OnSlotSelect (b - 16)]
    else []
  end.

End WebHIDAdapter.

(** ** src/main.js: what the page feeds to the game *)

Module JsPage.

(** [setupInputHandlers]: the callbacks given to the adapters. *)
Definition callback (c : adapter_call) : M unit :=
  match c with
  | OnSlotSelect slot => Js.selectSlot slot
  | OnDigitChange direction => Js.changeDigit direction
  | OnConfirm => Js.confirmSlot
  | PreventDefault | LogReport _ => skip
  end.

Definition callbacks (cs : list adapter_call) : M unit :=
  foldr (λ c rest, callback c;; rest) skip cs.

(** The listeners of [KeyboardAdapter] and [setupUI].  (The HID adapter
    has the same callbacks, but nothing in main.js calls its [connect],
    so no report ever reaches it.) *)
Inductive input :=
| KeyDown (code : string)
| ClickSlot (index : nat)   (* slotElements.forEach((slot, index) => ...) *)
| ClickEnter                (* #enter-combination *)
| ClickReset.               (* #reset-game *)

Definition on (i : input) : M unit :=
  match i with
  | KeyDown code => callbacks (KeyboardAdapter.handleKeyDown code)
  | ClickSlot index => Js.selectSlot (Z.of_nat index)
  | ClickEnter => Js.checkCombination
  | ClickReset => Js.reset
  end.

Definition play (inputs : list input) (g : LockPickerGame) : LockPickerGame :=
  foldl (λ g i, exec (on i) g) g inputs.

End JsPage.

(** ** src/unnamed/part_000: what the page feeds to the game *)

Module TsPage.

Definition callback (c : adapter_call) : M unit :=
  match c with
  | OnSlotSelect slot => Ts.selectSlot slot
  | OnDigitChange direction => Ts.changeDigit direction
  | OnConfirm => Ts.confirmSlot
  | PreventDefault | LogReport _ => skip
  end.

Definition callbacks (cs : list adapter_call) : M unit :=
  foldr (λ c rest, callback c;; rest) skip cs.

(** Key presses, the reports of a connected HID device, clicks on a slot
    and on the reset button. *)
Inductive input :=
| KeyDown (code : string)
| InputReport (bytes : list Z)
| ClickSlot (index : nat)
| ClickReset.

Definition on (i : input) : M unit :=
  match i with
  | KeyDown code => callbacks (KeyboardAdapter.handleKeyDown code)
  | InputReport bytes => callbacks (WebHIDAdapter.handleInputReport bytes)
  | ClickSlot index => Ts.selectSlot (Z.of_nat index)
  | ClickReset => Ts.reset
  end.

Definition play (inputs : list input) (g : LockPickerGame) : LockPickerGame :=
  foldl (λ g i, exec (on i) g) g inputs.

End TsPage.

(** ** Texts *)

(** [this.charset[i]]. *)
Definition charset_at (i : Z) : option Ascii.ascii :=
  if i <? 0 then None else String.get (Z.to_nat i) charset.

(** [updateDisplay()]: the text given to the digit element [index],
    [this.charset[this.slots[index]]]. *)
Definition digit_text (g : LockPickerGame) (index : Z) : option Ascii.ascii :=
  at_ (slots g) index ≫= charset_at.

(** [xs.join('')] on characters: [undefined] adds nothing. *)
Definition join (xs : list (option Ascii.ascii)) : string :=
  foldr (λ x s, match x with Some c => String c s | None => s end) EmptyString xs.

(** [generateTargetCode()]: the text logged after 'Target code:',
    [this.targetCode.map(i => this.charset[i]).join('')]. *)
Definition target_text (g : LockPickerGame) : string :=
  join (map charset_at (targetCode g)).

(** The character of the decimal digit [d]. *)
Definition digit_char (d : Z) : Ascii.ascii := Ascii.ascii_of_nat (48 + Z.to_nat d).

(** ** class MatrixAnimation: typeText *)

Module MatrixAnimation.

Inductive typing_step :=
| Show (text : string)   (* this.terminalText.textContent = ... *)
| Callback.              (* callback() *)

(** The closure [typing] of [typeText(text, callback)], from counter
    [i]: each run either shows [text.substring(0, i + 1)] and schedules
    the next run, or calls back.  [runs] bounds the number of runs. *)
Fixpoint typing (runs : nat) (text : string) (i : nat) : list typing_step :=
  match runs with
  | O => []
  | S runs' =>
    if (i <? String.length text)%nat
    then Show (substring 0 (i + 1) text) :: typing runs' text (i + 1)
    else [Callback]
  end.

End MatrixAnimation.

(** ** Vocabulary of the further properties *)

(** A flag of the TypeScript variant vouches for the target digit: it
    was equal to a digit of the alphabet when the slot was confirmed. *)
Definition flagged_targets_ok (g : LockPickerGame) : Prop :=
  Forall2 (λ (c : bool) t, c = true → in_alphabet t) (correctSlots g) (targetCode g).

(** A callback call the game accepts as it is meant: a slot among the
    three, a direction of one step. *)
Definition in_domain (c : adapter_call) : Prop :=
  match c with
  | OnSlotSelect slot => 0 ≤ slot < 3
  | OnDigitChange direction => is_direction direction
  | _ => True
  end.

(** An input of the page for each event of the model; none is needed
    for a slot outside {0,1,2}, which [selectSlot] ignores. *)
Definition Js_inputs_of (e : JsEvents.event) : list JsPage.input :=
  match e with
  | JsEvents.SelectSlot i =>
    if i =? 0 then [JsPage.KeyDown "Digit1"]
    else if i =? 1 then [JsPage.KeyDown "Digit2"]
    else if i =? 2 then [JsPage.KeyDown "Digit3"]
    else []
  | JsEvents.ChangeDigit d =>
    if d =? 1 then [JsPage.KeyDown "ArrowUp"] else [JsPage.KeyDown "ArrowDown"]
  | JsEvents.Confirm => [JsPage.KeyDown "Enter"]
  | JsEvents.CheckCombination => [JsPage.ClickEnter]
  | JsEvents.Reset => [JsPage.ClickReset]
  end.

Definition Ts_inputs_of (e : TsEvents.event) : list TsPage.input :=
  match e with
  | TsEvents.SelectSlot i =>
    if i =? 0 then [TsPage.KeyDown "Digit1"]
    else if i =? 1 then [TsPage.KeyDown "Digit2"]
    else if i =? 2 then [TsPage.KeyDown "Digit3"]
    else []
  | TsEvents.ChangeDigit d =>
    if d =? 1 then [TsPage.KeyDown "ArrowUp"] else [TsPage.KeyDown "ArrowDown"]
  | TsEvents.Confirm => [TsPage.KeyDown "Enter"]
  | TsEvents.Reset => [TsPage.ClickReset]
  end.

(** The value of a decimal digit character. *)
Definition digit_value (c : Ascii.ascii) : Z := Z.of_nat (Ascii.nat_of_ascii c) - 48.

Fixpoint string_of_chars (cs : list Ascii.ascii) : string :=
  match cs with
  | [] => EmptyString
  | c :: rest => String c (string_of_chars rest)
  end.

(** Steps up from digit [d] to digit [t]. *)
Definition dial_count (d t : Z) : nat := Z.to_nat ((t - d) `mod` 10).

(** The events that open slot [i] of [g], and the whole lock. *)
Definition Js_open_slot (g : LockPickerGame) (i : Z) : list JsEvents.event :=
  JsEvents.SelectSlot i ::
  replicate (dial_count (default 0 (at_ (slots g) i))
                        (default 0 (at_ (targetCode g) i)))
            (JsEvents.ChangeDigit 1)
  ++ [JsEvents.Confirm].

Definition Js_open_lock (g : LockPickerGame) : list JsEvents.event :=
  Js_open_slot g 0 ++ Js_open_slot g 1 ++ Js_open_slot g 2.

Definition Ts_open_slot (g : LockPickerGame) (i : Z) : list TsEvents.event :=
  TsEvents.SelectSlot i ::
  replicate (dial_count (default 0 (at_ (slots g) i))
                        (default 0 (at_ (targetCode g) i)))
            (TsEvents.ChangeDigit 1)
  ++ [TsEvents.Confirm].

Definition Ts_open_lock (g : LockPickerGame) : list TsEvents.event :=
  Ts_open_slot g 0 ++ Ts_open_slot g 1 ++ Ts_open_slot g 2.

Definition is_unlock_sound (c : effect) : bool :=
  match c with Play unlock_sound => true | _ => false end.

(** How many times a log plays the unlock sound. *)
Definition unlock_sounds (log : list effect) : nat :=
  length (filter (λ c, is_unlock_sound c = true) log).

(** The calls made while the events are handled one after the other. *)
Fixpoint Js_log (es : list JsEvents.event) (g : LockPickerGame) : list effect :=
  match es with
  | [] => []
  | e :: es => calls (JsEvents.handle e) g ++ Js_log es (exec (JsEvents.handle e) g)
  end.

Fixpoint Ts_log (es : list TsEvents.event) (g : LockPickerGame) : list effect :=
  match es with
  | [] => []
  | e :: es => calls (TsEvents.handle e) g ++ Ts_log es (exec (TsEvents.handle e) g)
  end.

(** * Properties *)

(** ** Shared lemmas *)

Ltac unfold_methods :=
  unfold exec,
    Js.selectSlot, Js.changeDigit, Js.confirmSlot, Js.checkCombination,
    Js.reset, Js.unlock, Js.generateTargetCode, Js.updateDisplay,
    Js.updateSlotHighlights, Js.animateDigitChange, Js.play, Js.init,
    Ts.selectSlot, Ts.changeDigit, Ts.confirmSlot,
    Ts.reset, Ts.unlock, Ts.generateTargetCode, Ts.updateDisplay,
    Ts.updateSlotHighlights, Ts.animateDigitChange, Ts.play, Ts.init,
    skip, get, modify, emit, mbind, mret, M_bind, M_ret, at_, store in *.

(** A well-formed game, spelled out: three-element arrays and a
    concrete active slot. *)
Ltac explode g :=
  let sl := fresh "sl" in let cur := fresh "cur" in let tc := fresh "tc" in
  let cs := fresh "cs" in let u := fresh "u" in let r := fresh "r" in
  let W := fresh "W" in
  destruct g as [sl cur tc cs u r];
  match goal with H : wf _ |- _ => destruct H as (?&?&?&W) end;
  simpl in *;
  destruct sl as [|? [|? [|? [|? ?]]]]; try discriminate;
  destruct cs as [|? [|? [|? [|? ?]]]]; try discriminate;
  destruct tc as [|? [|? [|? [|? ?]]]]; try discriminate;
  assert (cur = 0 ∨ cur = 1 ∨ cur = 2) as [->|[->| ->]] by lia;
  clear W.

Ltac crunch :=
  repeat (simpl in *;
    match goal with
    | |- context [?a =? ?b] => destruct (Z.eqb_spec a b)
    | |- context [if ?b then _ else _] => destruct b eqn:?
    end);
  simpl in *.

(** *** The generator on seeds that keep the dividend non-negative *)

Lemma next_seed_range r :
  dividend_nonneg r → 0 ≤ SeededRandom.seed (SeededRandom.next r).2 < 233280.
Proof.
  unfold dividend_nonneg, SeededRandom.next; simpl; intros H.
  apply Z.rem_bound_pos; lia.
Qed.

Lemma next_dividend_nonneg r :
  dividend_nonneg r → dividend_nonneg (SeededRandom.next r).2.
Proof.
  intros H. pose proof (next_seed_range r H). unfold dividend_nonneg. lia.
Qed.

Lemma next_seed_mod r :
  dividend_nonneg r →
  SeededRandom.seed (SeededRandom.next r).2
  = (SeededRandom.seed r * 9301 + 49297) `mod` 233280.
Proof.
  unfold dividend_nonneg, SeededRandom.next; simpl; intros H.
  apply Z.rem_mod_nonneg; lia.
Qed.

Lemma next_value r :
  (SeededRandom.next r).1
  = (SeededRandom.seed (SeededRandom.next r).2 # 233280)%Q.
Proof. reflexivity. Qed.

Lemma next_unit_interval r :
  dividend_nonneg r →
  (0 <= (SeededRandom.next r).1)%Q ∧ ((SeededRandom.next r).1 < 1)%Q.
Proof.
  intros H. pose proof (next_seed_range r H) as B.
  rewrite next_value. unfold Qle, Qlt; cbn [Qnum Qden]. lia.
Qed.

Lemma nextInt_floor max r :
  (SeededRandom.nextInt max r).1
  = Qfloor ((SeededRandom.next r).1 * inject_Z max) ∧
  (SeededRandom.nextInt max r).2 = (SeededRandom.next r).2.
Proof. unfold SeededRandom.nextInt. destruct (SeededRandom.next r); auto. Qed.

Lemma nextInt_div max r :
  (SeededRandom.nextInt max r).1
  = (SeededRandom.seed (SeededRandom.next r).2 * max) `div` 233280.
Proof. reflexivity. Qed.

Lemma nextInt_range max r :
  dividend_nonneg r → 1 ≤ max → 0 ≤ (SeededRandom.nextInt max r).1 < max.
Proof.
  intros H Hmax. pose proof (next_seed_range r H) as B.
  rewrite nextInt_div. split.
  - apply Z.div_pos; nia.
  - apply Z.div_lt_upper_bound; nia.
Qed.

(** *** Drawing a target code *)

Lemma Js_generateTargetCode_exec g :
  exec Js.generateTargetCode g
  = set_targetCode (draw3 (random g)).1 (set_random (draw3 (random g)).2 g).
Proof. reflexivity. Qed.

Lemma Ts_generateTargetCode_exec g :
  exec Ts.generateTargetCode g
  = set_targetCode (draw3 (random g)).1 (set_random (draw3 (random g)).2 g).
Proof. reflexivity. Qed.

Lemma Js_reset_exec g :
  exec Js.reset g
  = mkGame [0; 0; 0] 0 (draw3 (random g)).1 [false; false; false] false
           (draw3 (random g)).2.
Proof. reflexivity. Qed.

Lemma Ts_reset_exec g :
  exec Ts.reset g
  = mkGame [0; 0; 0] 0 (draw3 (random g)).1 [false; false; false] false
           (draw3 (random g)).2.
Proof. reflexivity. Qed.

Lemma Js_new_game_eq seed :
  Js.new_game seed
  = mkGame [0; 0; 0] 0 (draw3 (SeededRandom.mk seed)).1 [false; false; false] false
           (draw3 (SeededRandom.mk seed)).2.
Proof. reflexivity. Qed.

Lemma Ts_new_game_eq seed : Ts.new_game seed = Js.new_game seed.
Proof. reflexivity. Qed.

Lemma draw3_length r : length (draw3 r).1 = 3%nat.
Proof. reflexivity. Qed.

Lemma draw3_range r :
  dividend_nonneg r →
  Forall in_alphabet (draw3 r).1 ∧ dividend_nonneg (draw3 r).2.
Proof.
  intros H0.
  pose proof (next_dividend_nonneg _ H0) as H1.
  pose proof (next_dividend_nonneg _ H1) as H2.
  pose proof (next_dividend_nonneg _ H2) as H3.
  assert (1 ≤ charset_length) as L by (vm_compute; discriminate).
  pose proof (nextInt_range _ _ H0 L) as B0.
  pose proof (nextInt_range _ _ H1 L) as B1.
  pose proof (nextInt_range _ _ H2 L) as B2.
  split; [|exact H3].
  change (draw3 r).1 with
    [(SeededRandom.nextInt charset_length r).1;
     (SeededRandom.nextInt charset_length (SeededRandom.next r).2).1;
     (SeededRandom.nextInt charset_length
        (SeededRandom.next (SeededRandom.next r).2).2).1].
  repeat apply Forall_cons_2; [exact B0 | exact B1 | exact B2 | apply Forall_nil_2].
Qed.

(** *** Reachable states are well formed *)

Lemma Js_new_game_wf seed : wf (Js.new_game seed).
Proof. rewrite Js_new_game_eq. repeat split; simpl; lia. Qed.

Lemma Js_handle_wf e g : wf g → wf (exec (JsEvents.handle e) g).
Proof.
  intros W. destruct e as [i|d| | |]; simpl.
  - explode g; unfold_methods; crunch; repeat split; simpl; lia.
  - explode g; unfold_methods; crunch; repeat split; simpl; lia.
  - explode g; unfold_methods; crunch; repeat split; simpl; lia.
  - explode g; unfold_methods; unfold every; crunch; repeat split; simpl; lia.
  - rewrite Js_reset_exec. repeat split; simpl; lia.
Qed.

Lemma Ts_handle_wf e g : wf g → wf (exec (TsEvents.handle e) g).
Proof.
  intros W. destruct e as [i|d| |]; simpl.
  - explode g; unfold_methods; crunch; repeat split; simpl; lia.
  - explode g; unfold_methods; crunch; repeat split; simpl; lia.
  - explode g; unfold_methods; crunch; repeat split; simpl; lia.
  - rewrite Ts_reset_exec. repeat split; simpl; lia.
Qed.

Lemma Js_reachable_wf seed g : JsEvents.reachable seed g → wf g.
Proof.
  induction 1 as [|g e _ IH _]; [apply Js_new_game_wf | by apply Js_handle_wf].
Qed.

Lemma Ts_reachable_wf seed g : TsEvents.reachable seed g → wf g.
Proof.
  induction 1 as [|g e _ IH _]; [apply Js_new_game_wf | by apply Ts_handle_wf].
Qed.

Lemma strict_eq_true a b : strict_eq a b = true ↔ a = b.
Proof.
  destruct a as [x|], b as [y|]; simpl; try (split; congruence).
  rewrite Z.eqb_eq. split; congruence.
Qed.

(** ** confirmSlot *)

Ltac slot_cases j :=
  assert (j = 0 ∨ j = 1 ∨ j = 2) as [->|[->| ->]] by lia.

Ltac use_others A :=
  first [ by (specialize (A 0 ltac:(lia) ltac:(lia)))
        | by (specialize (A 1 ltac:(lia) ltac:(lia)))
        | by (specialize (A 2 ltac:(lia) ltac:(lia))) ].

Lemma confirmSlot_unlocks_wf g :
  wf g → locked g →
  (unlocked (exec Js.confirmSlot g) = true ↔ active_matches g ∧ others_correct g) ∧
  (unlocked (exec Ts.confirmSlot g) = true ↔ active_matches g ∧ others_correct g).
Proof.
  intros W L. unfold active_matches, others_correct.
  explode g; unfold locked in L; simpl in L; subst.
  all: repeat match goal with b : bool |- _ => destruct b end.
  all: unfold_methods; crunch.
  all: split; (split;
    [ intros U; first
      [ discriminate U
      | split; [ congruence | intros j ? ?; slot_cases j; done ] ]
    | intros [E A]; try reflexivity; exfalso;
      first [ congruence | use_others A ] ]).
Qed.

(** C1. On a locked state, [confirmSlot()] sets [unlocked] exactly when,
    just before the call, the digit of the active slot equals its
    target digit and every other slot is already flagged correct.  Both
    variants, on every state with three slots, flags and target digits
    and an active slot in range, hence on every state reachable in
    either variant, for every seed. *)
Theorem confirmSlot_unlocks_iff (seed : Z) (g : LockPickerGame) :
  locked g →
  (wf g →
   (unlocked (exec Js.confirmSlot g) = true ↔ active_matches g ∧ others_correct g) ∧
   (unlocked (exec Ts.confirmSlot g) = true ↔ active_matches g ∧ others_correct g)) ∧
  (JsEvents.reachable seed g →
   (unlocked (exec Js.confirmSlot g) = true ↔ active_matches g ∧ others_correct g)) ∧
  (TsEvents.reachable seed g →
   (unlocked (exec Ts.confirmSlot g) = true ↔ active_matches g ∧ others_correct g)).
Proof.
  intros L. split; [|split]; intros R.
  - by apply confirmSlot_unlocks_wf.
  - apply Js_reachable_wf in R. by apply confirmSlot_unlocks_wf.
  - apply Ts_reachable_wf in R. by apply confirmSlot_unlocks_wf.
Qed.

(** C8 (as amended).  On a locked state, [confirmSlot()] stores
    [isCorrect] in the flag of the active slot in both variants.  The
    JavaScript build then moves the active slot to [min (activeSlot + 1) 2]
    when [isCorrect] holds and leaves it alone otherwise; the TypeScript
    variant never moves it. *)
Theorem confirmSlot_flag_and_slot (g : LockPickerGame) :
  wf g → locked g →
  (correctSlots (exec Js.confirmSlot g)
     = store (correctSlots g) (currentSlot g) (is_correct g) ∧
   at_ (correctSlots (exec Js.confirmSlot g)) (currentSlot g) = Some (is_correct g) ∧
   currentSlot (exec Js.confirmSlot g)
     = if is_correct g then Z.min (currentSlot g + 1) 2 else currentSlot g) ∧
  (correctSlots (exec Ts.confirmSlot g)
     = store (correctSlots g) (currentSlot g) (is_correct g) ∧
   at_ (correctSlots (exec Ts.confirmSlot g)) (currentSlot g) = Some (is_correct g) ∧
   currentSlot (exec Ts.confirmSlot g) = currentSlot g).
Proof.
  intros W L. unfold is_correct.
  explode g; unfold locked in L; simpl in L; subst.
  all: unfold_methods; crunch; done.
Qed.

(** ** selectSlot *)

(** C7 (as amended).  On a locked state, [selectSlot(i)] with [i] in
    {0,1,2} makes [i] the active slot and changes nothing else; when the
    game is unlocked or [i] is outside {0,1,2}, the call changes nothing
    and calls no collaborator. *)
Theorem selectSlot_spec (g : LockPickerGame) (i : Z) :
  (locked g → 0 ≤ i < 3 →
     exec (Js.selectSlot i) g = set_currentSlot i g ∧
     exec (Ts.selectSlot i) g = set_currentSlot i g) ∧
  (unlocked g = true ∨ i < 0 ∨ 3 ≤ i →
     Js.selectSlot i g = ((), g, []) ∧ Ts.selectSlot i g = ((), g, [])).
Proof.
  unfold locked. split.
  - intros L Hi. unfold_methods. rewrite L.
    destruct (Z.ltb_spec i 0), (Z.geb_spec i 3); try lia. done.
  - intros Hi. unfold_methods.
    destruct (unlocked g); [done|].
    destruct (Z.ltb_spec i 0), (Z.geb_spec i 3); try done.
    destruct Hi as [?|[?|?]]; [done|lia|lia].
Qed.

(** ** The unlocked state *)

Lemma Js_handle_unlocked e g :
  unlocked g = true → e ≠ JsEvents.Reset → JsEvents.handle e g = ((), g, []).
Proof.
  intros U N. destruct e; try done; simpl; unfold_methods; by rewrite U.
Qed.

Lemma Ts_handle_unlocked e g :
  unlocked g = true → e ≠ TsEvents.Reset → TsEvents.handle e g = ((), g, []).
Proof.
  intros U N. destruct e; try done; simpl; unfold_methods; by rewrite U.
Qed.

Lemma Js_run_unlocked es g :
  unlocked g = true → Forall (λ e, e ≠ JsEvents.Reset) es → JsEvents.run es g = g.
Proof.
  intros U F. induction F as [|e es N _ IH]; [done|].
  change (JsEvents.run (e :: es) g)
    with (JsEvents.run es (exec (JsEvents.handle e) g)).
  assert (exec (JsEvents.handle e) g = g) as ->; [|exact IH].
  unfold exec. by rewrite (Js_handle_unlocked e g U N).
Qed.

Lemma Ts_run_unlocked es g :
  unlocked g = true → Forall (λ e, e ≠ TsEvents.Reset) es → TsEvents.run es g = g.
Proof.
  intros U F. induction F as [|e es N _ IH]; [done|].
  change (TsEvents.run (e :: es) g)
    with (TsEvents.run es (exec (TsEvents.handle e) g)).
  assert (exec (TsEvents.handle e) g = g) as ->; [|exact IH].
  unfold exec. by rewrite (Ts_handle_unlocked e g U N).
Qed.

(** C3.  Once [unlocked] is true, [selectSlot(i)] for any integer [i],
    [changeDigit(direction)], [confirmSlot()] and [checkCombination()]
    return at their first line: the state is the same afterwards, field
    by field, and no collaborator is called; so the state stays the same
    through any sequence of such calls (anything but a reset).  Both
    variants. *)
Theorem unlocked_absorbing (g : LockPickerGame) :
  unlocked g = true →
  ((∀ i, Js.selectSlot i g = ((), g, [])) ∧
   (∀ direction, Js.changeDigit direction g = ((), g, [])) ∧
   Js.confirmSlot g = ((), g, []) ∧
   Js.checkCombination g = ((), g, []) ∧
   (∀ es, Forall (λ e, e ≠ JsEvents.Reset) es → JsEvents.run es g = g)) ∧
  ((∀ i, Ts.selectSlot i g = ((), g, [])) ∧
   (∀ direction, Ts.changeDigit direction g = ((), g, [])) ∧
   Ts.confirmSlot g = ((), g, []) ∧
   (∀ es, Forall (λ e, e ≠ TsEvents.Reset) es → TsEvents.run es g = g)).
Proof.
  intros U. split; split_and!;
    try (intros es; by first [apply Js_run_unlocked | apply Ts_run_unlocked]).
  all: unfold_methods; by rewrite U.
Qed.

(** ** checkCombination *)

(** C10.  On a locked state, [checkCombination()] unlocks when the
    digits equal the target code slot by slot (changing [unlocked] and
    nothing else); when they differ, the state stays as it is and the
    only call made is the shake animation of the safe. *)
Theorem checkCombination_spec (g : LockPickerGame) :
  wf g → locked g →
  (slots g = targetCode g →
     exec Js.checkCombination g = set_unlocked true g ∧
     unlocked (exec Js.checkCombination g) = true) ∧
  (slots g ≠ targetCode g →
     Js.checkCombination g = ((), g, [SafeAnimation "shake"])).
Proof.
  intros W L.
  explode g; unfold locked in L; simpl in L; subst.
  all: unfold_methods; unfold every; crunch.
  all: split; intros E; first [done | congruence].
Qed.

(** ** Invariants of the reachable states *)

Ltac fire :=
  repeat match goal with
  | H : ?a = ?a → _ |- _ => specialize (H eq_refl)
  | H : Some false = Some true → _ |- _ => clear H
  | H : false = true → _ |- _ => clear H
  | H : _ ↔ _ |- _ => destruct H
  end.

Lemma Js_handle_inv e g : Js_inv g → Js_inv (exec (JsEvents.handle e) g).
Proof.
  intros (W & F & A & U). unfold Js_inv, flags_sound, all_correct in *.
  destruct e as [i|d| | |]; simpl JsEvents.handle;
    [| | | |rewrite Js_reset_exec; simpl;
            repeat split; try done; try lia; by intros [|[|[|?]]]].
  all: split; [by apply (Js_handle_wf (JsEvents.SelectSlot i))
              || by apply (Js_handle_wf (JsEvents.ChangeDigit d))
              || by apply (Js_handle_wf JsEvents.Confirm)
              || by apply (Js_handle_wf JsEvents.CheckCombination)|].
  all: pose proof (F 0%nat) as F0; pose proof (F 1%nat) as F1;
       pose proof (F 2%nat) as F2; clear F.
  all: explode g.
  all: repeat match goal with b : bool |- _ => destruct b end.
  all: simpl in *; fire; simplify_eq.
  all: unfold_methods; unfold every; crunch.
  all: repeat split; try done; try congruence.
  all: try (intros [|[|[|?]]] ?; simpl in *; fire; simplify_eq; congruence).
Qed.

Lemma Ts_handle_inv e g : Ts_inv g → Ts_inv (exec (TsEvents.handle e) g).
Proof.
  intros (W & U). unfold Ts_inv, all_correct in *.
  split; [by apply Ts_handle_wf|].
  destruct e as [i|d| |]; simpl TsEvents.handle;
    [| | |by rewrite Ts_reset_exec].
  all: explode g.
  all: repeat match goal with b : bool |- _ => destruct b end.
  all: simpl in *; fire; try done.
  all: unfold_methods; crunch; done.
Qed.

Lemma Js_new_game_inv seed : Js_inv (Js.new_game seed).
Proof.
  rewrite Js_new_game_eq. split; [apply Js_new_game_wf|].
  unfold flags_sound, all_correct; simpl.
  repeat split; try done. by intros [|[|[|?]]].
Qed.

Lemma Ts_new_game_inv seed : Ts_inv (Ts.new_game seed).
Proof. split; [apply Js_new_game_wf | done]. Qed.

Lemma Js_reachable_inv seed g : JsEvents.reachable seed g → Js_inv g.
Proof.
  induction 1 as [|g e _ IH _]; [apply Js_new_game_inv | by apply Js_handle_inv].
Qed.

Lemma Ts_reachable_inv seed g : TsEvents.reachable seed g → Ts_inv g.
Proof.
  induction 1 as [|g e _ IH _]; [apply Ts_new_game_inv | by apply Ts_handle_inv].
Qed.

(** Running a list of valid events stays among the reachable states. *)
Lemma Js_reachable_run seed es g :
  Forall JsEvents.valid es → JsEvents.reachable seed g →
  JsEvents.reachable seed (JsEvents.run es g).
Proof.
  intros V. revert g. induction V as [|e es Ve _ IH]; intros g R; [done|].
  apply IH. by constructor.
Qed.

Lemma Ts_reachable_run seed es g :
  Forall TsEvents.valid es → TsEvents.reachable seed g →
  TsEvents.reachable seed (TsEvents.run es g).
Proof.
  intros V. revert g. induction V as [|e es Ve _ IH]; intros g R; [done|].
  apply IH. by constructor.
Qed.

(** *** Digits and target digits *)

Lemma rem_in_alphabet x d :
  in_alphabet x → is_direction d →
  in_alphabet ((x + d + charset_length) `rem` charset_length).
Proof.
  unfold in_alphabet. change charset_length with 10.
  intros Hx [-> | ->]; apply Z.rem_bound_pos; lia.
Qed.

Lemma Js_handle_digits e g :
  JsEvents.valid e → wf g →
  Forall in_alphabet (slots g) → Forall in_alphabet (slots (exec (JsEvents.handle e) g)).
Proof.
  intros V W D.
  destruct e as [i|d| | |]; simpl JsEvents.handle;
    [| | | |rewrite Js_reset_exec; simpl; by repeat constructor].
  all: explode g; rewrite !Forall_cons in D; destruct D as (?&?&?&_).
  all: unfold_methods; unfold every; crunch; rewrite !Forall_cons.
  all: split_and!; try done; by apply rem_in_alphabet.
Qed.

Lemma Ts_handle_digits e g :
  TsEvents.valid e → wf g →
  Forall in_alphabet (slots g) → Forall in_alphabet (slots (exec (TsEvents.handle e) g)).
Proof.
  intros V W D.
  destruct e as [i|d| |]; simpl TsEvents.handle;
    [| | |rewrite Ts_reset_exec; simpl; by repeat constructor].
  all: explode g; rewrite !Forall_cons in D; destruct D as (?&?&?&_).
  all: unfold_methods; crunch; rewrite !Forall_cons.
  all: split_and!; try done; by apply rem_in_alphabet.
Qed.

(** Whatever the seed, the digits stay in the alphabet. *)
Lemma Js_reachable_digits seed g :
  JsEvents.reachable seed g → Forall in_alphabet (slots g).
Proof.
  induction 1 as [|g e R IH V]; [by repeat constructor|].
  apply Js_handle_digits; eauto using Js_reachable_wf.
Qed.

Lemma Ts_reachable_digits seed g :
  TsEvents.reachable seed g → Forall in_alphabet (slots g).
Proof.
  induction 1 as [|g e R IH V]; [by repeat constructor|].
  apply Ts_handle_digits; eauto using Ts_reachable_wf.
Qed.

Lemma Js_handle_target e g :
  wf g → target_ok g → target_ok (exec (JsEvents.handle e) g).
Proof.
  intros W T. unfold target_ok in *.
  destruct e as [i|d| | |]; simpl JsEvents.handle;
    [| | | |rewrite Js_reset_exec; simpl; apply draw3_range, T].
  all: explode g; unfold_methods; unfold every; crunch; done.
Qed.

Lemma Ts_handle_target e g :
  wf g → target_ok g → target_ok (exec (TsEvents.handle e) g).
Proof.
  intros W T. unfold target_ok in *.
  destruct e as [i|d| |]; simpl TsEvents.handle;
    [| | |rewrite Ts_reset_exec; simpl; apply draw3_range, T].
  all: explode g; unfold_methods; crunch; done.
Qed.

(** From a seed that keeps the first dividend non-negative (any seed
    from [-5] upwards; the arithmetic of the code up to 968411918577,
    see [exact_doubles]), every target digit is in the alphabet. *)
Lemma Js_reachable_target seed g :
  0 ≤ seed * 9301 + 49297 → JsEvents.reachable seed g → target_ok g.
Proof.
  intros S. induction 1 as [|g e R IH V].
  - rewrite Js_new_game_eq. apply draw3_range, S.
  - apply Js_handle_target; eauto using Js_reachable_wf.
Qed.

Lemma Ts_reachable_target seed g :
  0 ≤ seed * 9301 + 49297 → TsEvents.reachable seed g → target_ok g.
Proof.
  intros S. induction 1 as [|g e R IH V].
  - rewrite Ts_new_game_eq, Js_new_game_eq. apply draw3_range, S.
  - apply Ts_handle_target; eauto using Ts_reachable_wf.
Qed.

(** ** A session with seed 1 *)

Example target_of_seed_1 : targetCode new_1 = [2; 5; 3].
Proof. vm_compute. reflexivity. Qed.

Ltac valid_events :=
  repeat first
    [ apply Forall_nil_2
    | apply Forall_cons_2; [first [exact I | by left | by right]|] ].

Lemma dial_2_5_3_valid : Forall JsEvents.valid dial_2_5_3.
Proof. unfold dial_2_5_3; simpl. valid_events. Qed.

Lemma confirm_2_5_then_dial_3_valid : Forall JsEvents.valid confirm_2_5_then_dial_3.
Proof. unfold confirm_2_5_then_dial_3; simpl. valid_events. Qed.

Lemma confirm_2_5_3_valid : Forall JsEvents.valid confirm_2_5_3.
Proof.
  apply Forall_app_2; [apply confirm_2_5_then_dial_3_valid | valid_events].
Qed.

Lemma dialled_1_reachable : JsEvents.reachable 1 dialled_1.
Proof. apply Js_reachable_run; [apply dial_2_5_3_valid | constructor]. Qed.

Lemma Ts_last_confirm_pending_1_reachable :
  TsEvents.reachable 1 Ts_last_confirm_pending_1.
Proof.
  apply Ts_reachable_run; [|constructor].
  unfold Ts_confirm_2_5_then_dial_3; simpl. valid_events.
Qed.

Lemma last_confirm_pending_1_reachable : JsEvents.reachable 1 last_confirm_pending_1.
Proof.
  apply Js_reachable_run; [apply confirm_2_5_then_dial_3_valid | constructor].
Qed.

Lemma opened_1_reachable : JsEvents.reachable 1 opened_1.
Proof. apply Js_reachable_run; [apply confirm_2_5_3_valid | constructor]. Qed.

Lemma first_digit_dialled_1_reachable : JsEvents.reachable 1 first_digit_dialled_1.
Proof. apply Js_reachable_run; [simpl; valid_events | constructor]. Qed.

Example dialled_state :
  dialled_1
  = mkGame [2; 5; 3] 2 [2; 5; 3] [false; false; false] false (SeededRandom.mk 79852).
Proof. vm_compute. reflexivity. Qed.

Example opened_state :
  opened_1
  = mkGame [2; 5; 3] 2 [2; 5; 3] [true; true; true] true (SeededRandom.mk 79852).
Proof. vm_compute. reflexivity. Qed.

(** ** unlocked and the three flags *)

(** In the JavaScript build only two handlers can unlock: the confirm,
    which then leaves all three flags true, and the combination check,
    which looks at the digits and leaves the flags as they are. *)
Lemma Js_unlock_step e g :
  wf g → locked g → unlocked (exec (JsEvents.handle e) g) = true →
  (e = JsEvents.Confirm ∧ all_correct (exec (JsEvents.handle e) g) = true) ∨
  (e = JsEvents.CheckCombination ∧ slots g = targetCode g ∧
   correctSlots (exec (JsEvents.handle e) g) = correctSlots g).
Proof.
  intros W L. unfold all_correct.
  destruct e as [i|d| | |]; simpl JsEvents.handle;
    [| | | |by rewrite Js_reset_exec].
  all: explode g; unfold locked in L; simpl in L; subst.
  all: unfold_methods; unfold every; crunch; try done.
  all: intros _; first [by left | right; split_and!; congruence].
Qed.

(** C2 as stated fails on the JavaScript build: after dialling the code
    without confirming, the "enter combination" button unlocks while
    all three flags are false. *)
Lemma unlocked_without_flags :
  ¬ (∀ seed g, JsEvents.reachable seed g →
       (unlocked g = true ↔ all_correct g = true)).
Proof.
  intros C.
  destruct (C 1 (JsEvents.run (dial_2_5_3 ++ [JsEvents.CheckCombination])
                              (Js.new_game 1))) as [C1 _].
  - apply Js_reachable_run; [|constructor].
    apply Forall_app_2; [apply dial_2_5_3_valid | valid_events].
  - assert (all_correct (JsEvents.run (dial_2_5_3 ++ [JsEvents.CheckCombination])
                                      (Js.new_game 1)) = true) as E
      by (apply C1; vm_compute; reflexivity).
    vm_compute in E. discriminate E.
Qed.

(** C2 (as amended).  In every reachable state of the JavaScript build,
    three true flags imply [unlocked], and [unlocked] implies that the
    digits equal the target code; a handler that unlocks is either the
    confirm, with all three flags true afterwards, or the combination
    check, with the digits equal to the target code and the flags left
    as they were.  In the TypeScript variant, which has no combination
    check, [unlocked] holds exactly when the three flags are true. *)
Theorem unlocked_and_flags (seed : Z) (g : LockPickerGame) :
  (JsEvents.reachable seed g →
     (all_correct g = true → unlocked g = true) ∧
     (unlocked g = true → slots g = targetCode g) ∧
     (∀ e, locked g → unlocked (exec (JsEvents.handle e) g) = true →
        (e = JsEvents.Confirm ∧ all_correct (exec (JsEvents.handle e) g) = true) ∨
        (e = JsEvents.CheckCombination ∧ slots g = targetCode g ∧
         correctSlots (exec (JsEvents.handle e) g) = correctSlots g))) ∧
  (TsEvents.reachable seed g →
     (unlocked g = true ↔ all_correct g = true)).
Proof.
  split; intros R.
  - pose proof (Js_reachable_wf _ _ R) as W.
    apply Js_reachable_inv in R. destruct R as (_ & _ & A & U).
    split_and!; [exact A | exact U |].
    intros e. by apply Js_unlock_step.
  - apply Ts_reachable_inv in R. by destruct R as (_ & U).
Qed.

(** C7 as stated fails on unlocked reachable states: after the code is
    confirmed the active slot is 2, and [selectSlot(0)] leaves it there. *)
Lemma selectSlot_ignored_when_unlocked :
  ¬ (∀ seed g i, JsEvents.reachable seed g → 0 ≤ i < 3 →
       currentSlot (exec (Js.selectSlot i) g) = i).
Proof.
  intros C.
  specialize (C 1 (JsEvents.run confirm_2_5_3 (Js.new_game 1)) 0).
  pose proof opened_1_reachable as R.
  specialize (C R ltac:(lia)). vm_compute in C. discriminate C.
Qed.

(** C8 as stated fails on the TypeScript variant: with the right digit
    in slot 0, [confirmSlot()] flags the slot and stays on it. *)
Lemma Ts_confirmSlot_stays :
  ¬ (∀ seed g, TsEvents.reachable seed g → locked g → is_correct g = true →
       currentSlot (exec Ts.confirmSlot g) = Z.min (currentSlot g + 1) 2).
Proof.
  intros C.
  specialize (C 1 (TsEvents.run (replicate 2 (TsEvents.ChangeDigit 1))
                                (Ts.new_game 1))).
  assert (TsEvents.reachable 1 (TsEvents.run (replicate 2 (TsEvents.ChangeDigit 1))
                                             (Ts.new_game 1))) as R
    by (apply Ts_reachable_run; [simpl; valid_events | constructor]).
  specialize (C R). vm_compute in C. specialize (C eq_refl eq_refl). discriminate C.
Qed.

(** ** The generator on a negative seed *)

(** C5 at seed -6: [%] keeps the sign of the dividend, so [next()]
    returns -6509/233280, below 0, and [nextInt(10)] returns -1. *)
Theorem next_negative_seed :
  SeededRandom.next (SeededRandom.mk (-6))
    = ((-6509 # 233280)%Q, SeededRandom.mk (-6509)) ∧
  ¬ (0 <= (SeededRandom.next (SeededRandom.mk (-6))).1)%Q ∧
  (SeededRandom.nextInt 10 (SeededRandom.mk (-6))).1 = -1.
Proof.
  split_and!; [vm_compute; reflexivity| |vm_compute; reflexivity].
  intros H. vm_compute in H. by apply H.
Qed.

(** C4 at seed -6: the target code of the session is [-1; -4; -3], no
    element of which is a digit of the alphabet. *)
Theorem negative_seed_target_code :
  targetCode (Js.new_game (-6)) = [-1; -4; -3] ∧
  targetCode (Ts.new_game (-6)) = [-1; -4; -3] ∧
  Forall (λ t, ¬ in_alphabet t) (targetCode (Js.new_game (-6))).
Proof.
  split_and!; [vm_compute; reflexivity|vm_compute; reflexivity|].
  assert (targetCode (Js.new_game (-6)) = [-1; -4; -3]) as -> by (vm_compute; reflexivity).
  unfold in_alphabet. change charset_length with 10.
  repeat apply Forall_cons_2; try apply Forall_nil_2; lia.
Qed.

(** ** changeDigit *)

Lemma at_store_eq {A} (arr : list A) i x v :
  at_ arr i = Some x → at_ (store arr i v) i = Some v.
Proof.
  unfold at_, store. destruct (i <? 0); [done|]. intros E.
  apply list_lookup_insert_eq. by eapply lookup_lt_Some.
Qed.

Lemma store_store {A} (arr : list A) i v w :
  store (store arr i v) i w = store arr i w.
Proof.
  unfold store. destruct (i <? 0); [done|]. apply list_insert_insert_eq.
Qed.

Lemma store_same {A} (arr : list A) i x : at_ arr i = Some x → store arr i x = arr.
Proof.
  unfold at_, store. destruct (i <? 0); [done|]. apply list_insert_id.
Qed.

(** What [changeDigit] does to a locked game whose active slot shows
    [oldValue]. *)
Lemma Js_changeDigit_exec direction g oldValue :
  locked g → at_ (slots g) (currentSlot g) = Some oldValue →
  exec (Js.changeDigit direction) g
  = set_correctSlots (store (correctSlots g) (currentSlot g) false)
      (set_slots (store (slots g) (currentSlot g)
         ((oldValue + direction + charset_length) `rem` charset_length)) g).
Proof.
  intros L E. unfold exec, Js.changeDigit, mbind, M_bind, get.
  rewrite L, E. simpl.
  by destruct (strict_eq _ _).
Qed.

Lemma Ts_changeDigit_exec direction g oldValue :
  locked g → at_ (slots g) (currentSlot g) = Some oldValue →
  exec (Ts.changeDigit direction) g
  = set_slots (store (slots g) (currentSlot g)
      ((oldValue + direction + charset_length) `rem` charset_length)) g.
Proof.
  intros L E. unfold exec, Ts.changeDigit, mbind, M_bind, get.
  by rewrite L, E.
Qed.

Lemma turn_mod direction d :
  in_alphabet d → is_direction direction →
  turn direction d = (d + direction) `mod` 10.
Proof.
  unfold in_alphabet, turn. change charset_length with 10.
  intros Hd Hdir. rewrite Z.rem_mod_nonneg by (destruct Hdir; lia).
  replace (d + direction + 10) with (d + direction + 1 * 10) by lia.
  by rewrite Z.mod_add.
Qed.

Lemma turn_in_alphabet direction d :
  in_alphabet d → is_direction direction → in_alphabet (turn direction d).
Proof. apply rem_in_alphabet. Qed.

Lemma turn_up_down d : in_alphabet d → turn (-1) (turn 1 d) = d.
Proof.
  intros Hd.
  rewrite (turn_mod (-1)), (turn_mod 1);
    [|done|by left|by apply turn_in_alphabet; [|left]|by right].
  unfold in_alphabet in Hd. change charset_length with 10 in Hd.
  rewrite Z.add_mod_idemp_l by lia.
  replace (d + 1 + -1) with d by lia. apply Z.mod_small; lia.
Qed.

Lemma turn_down_up d : in_alphabet d → turn 1 (turn (-1) d) = d.
Proof.
  intros Hd.
  rewrite (turn_mod 1), (turn_mod (-1));
    [|done|by right|by apply turn_in_alphabet; [|right]|by left].
  unfold in_alphabet in Hd. change charset_length with 10 in Hd.
  rewrite Z.add_mod_idemp_l by lia.
  replace (d + -1 + 1) with d by lia. apply Z.mod_small; lia.
Qed.

Lemma turn_iter n d :
  in_alphabet d → Nat.iter n (turn 1) d = (d + Z.of_nat n) `mod` 10.
Proof.
  intros Hd. induction n as [|n IH].
  - simpl. unfold in_alphabet in Hd. change charset_length with 10 in Hd.
    rewrite Z.add_0_r, Z.mod_small; lia.
  - rewrite Nat.iter_succ, IH, turn_mod; [| |by left].
    + rewrite Z.add_mod_idemp_l by lia. f_equal. lia.
    + unfold in_alphabet. change charset_length with 10.
      apply Z.mod_pos_bound. lia.
Qed.

Lemma turn_full_circle d : in_alphabet d → Nat.iter 10 (turn 1) d = d.
Proof.
  intros Hd. rewrite turn_iter by done.
  unfold in_alphabet in Hd. change charset_length with 10 in Hd.
  change (Z.of_nat 10) with (1 * 10). rewrite Z.mod_add, Z.mod_small; lia.
Qed.

Section Dial.

(** A [changeDigit] of either variant: on a locked game it turns the
    digit of the active slot and keeps the game locked and the slot
    active. *)
Variable change : Z → LockPickerGame → LockPickerGame.

Hypothesis change_slots : ∀ direction g oldValue,
  locked g → at_ (slots g) (currentSlot g) = Some oldValue →
  slots (change direction g)
    = store (slots g) (currentSlot g) (turn direction oldValue) ∧
  currentSlot (change direction g) = currentSlot g ∧
  locked (change direction g).

Lemma change_twice d1 d2 g x :
  locked g → at_ (slots g) (currentSlot g) = Some x →
  slots (change d2 (change d1 g))
    = store (slots g) (currentSlot g) (turn d2 (turn d1 x)) ∧
  currentSlot (change d2 (change d1 g)) = currentSlot g.
Proof.
  intros L E.
  destruct (change_slots d1 g x L E) as (S1 & C1 & L1).
  destruct (change_slots d2 (change d1 g) (turn d1 x) L1) as (S2 & C2 & _).
  { rewrite S1, C1. by eapply at_store_eq. }
  by rewrite S2, C2, S1, C1, store_store.
Qed.

Lemma change_iter n g x :
  locked g → at_ (slots g) (currentSlot g) = Some x →
  slots (Nat.iter n (change 1) g)
    = store (slots g) (currentSlot g) (Nat.iter n (turn 1) x) ∧
  currentSlot (Nat.iter n (change 1) g) = currentSlot g ∧
  locked (Nat.iter n (change 1) g).
Proof.
  intros L E. induction n as [|n (S & C & L')].
  - simpl. by rewrite (store_same _ _ _ E).
  - rewrite !Nat.iter_succ.
    destruct (change_slots 1 (Nat.iter n (change 1) g) (Nat.iter n (turn 1) x) L')
      as (S' & C' & L'').
    { rewrite S, C. by eapply at_store_eq. }
    by rewrite S', C', S, C, store_store.
Qed.

(** Up then down, down then up, and ten times up each restore the
    digits and keep the active slot. *)
Lemma change_group_action g d :
  locked g → at_ (slots g) (currentSlot g) = Some d → in_alphabet d →
  (slots (change (-1) (change 1 g)) = slots g ∧
   currentSlot (change (-1) (change 1 g)) = currentSlot g) ∧
  (slots (change 1 (change (-1) g)) = slots g ∧
   currentSlot (change 1 (change (-1) g)) = currentSlot g) ∧
  (slots (Nat.iter 10 (change 1) g) = slots g ∧
   currentSlot (Nat.iter 10 (change 1) g) = currentSlot g).
Proof.
  intros L E Hd.
  destruct (change_twice 1 (-1) g d L E) as (S1 & C1).
  destruct (change_twice (-1) 1 g d L E) as (S2 & C2).
  destruct (change_iter 10 g d L E) as (S3 & C3 & _).
  rewrite turn_up_down in S1 by done.
  rewrite turn_down_up in S2 by done.
  rewrite turn_full_circle in S3 by done.
  rewrite (store_same _ _ _ E) in S1, S2, S3. done.
Qed.

End Dial.

Lemma Js_change_slots direction g oldValue :
  locked g → at_ (slots g) (currentSlot g) = Some oldValue →
  slots (exec (Js.changeDigit direction) g)
    = store (slots g) (currentSlot g) (turn direction oldValue) ∧
  currentSlot (exec (Js.changeDigit direction) g) = currentSlot g ∧
  locked (exec (Js.changeDigit direction) g).
Proof. intros L E. by rewrite (Js_changeDigit_exec _ _ _ L E). Qed.

Lemma Ts_change_slots direction g oldValue :
  locked g → at_ (slots g) (currentSlot g) = Some oldValue →
  slots (exec (Ts.changeDigit direction) g)
    = store (slots g) (currentSlot g) (turn direction oldValue) ∧
  currentSlot (exec (Ts.changeDigit direction) g) = currentSlot g ∧
  locked (exec (Ts.changeDigit direction) g).
Proof. intros L E. by rewrite (Ts_changeDigit_exec _ _ _ L E). Qed.

(** C6.  On a locked game whose active slot shows a digit [d] of the
    alphabet, [changeDigit(1)] then [changeDigit(-1)], [changeDigit(-1)]
    then [changeDigit(1)], and ten times [changeDigit(1)] each bring the
    digits back (so the active slot shows [d] again) with the same slot
    active; and from digits [0,0,0] with slot 0 active, [changeDigit(-1)]
    gives [9,0,0] with slot 0 still active.  Both variants. *)
Theorem changeDigit_group_action (g : LockPickerGame) (d : Z) :
  locked g → at_ (slots g) (currentSlot g) = Some d → in_alphabet d →
  (restored g d (exec (Js.changeDigit (-1)) (exec (Js.changeDigit 1) g)) ∧
   restored g d (exec (Js.changeDigit 1) (exec (Js.changeDigit (-1)) g)) ∧
   restored g d (Nat.iter 10 (exec (Js.changeDigit 1)) g)) ∧
  (restored g d (exec (Ts.changeDigit (-1)) (exec (Ts.changeDigit 1) g)) ∧
   restored g d (exec (Ts.changeDigit 1) (exec (Ts.changeDigit (-1)) g)) ∧
   restored g d (Nat.iter 10 (exec (Ts.changeDigit 1)) g)) ∧
  (slots g = [0; 0; 0] → currentSlot g = 0 →
   (slots (exec (Js.changeDigit (-1)) g) = [9; 0; 0] ∧
    currentSlot (exec (Js.changeDigit (-1)) g) = 0) ∧
   (slots (exec (Ts.changeDigit (-1)) g) = [9; 0; 0] ∧
    currentSlot (exec (Ts.changeDigit (-1)) g) = 0)).
Proof.
  intros L E Hd. unfold restored.
  pose proof (change_group_action (λ dir, exec (Js.changeDigit dir))
                Js_change_slots g d L E Hd) as ((J1 & J1') & (J2 & J2') & (J3 & J3')).
  pose proof (change_group_action (λ dir, exec (Ts.changeDigit dir))
                Ts_change_slots g d L E Hd) as ((T1 & T1') & (T2 & T2') & (T3 & T3')).
  cbv beta in *.
  split_and!;
    [ exact J1 | exact J1' | rewrite J1, J1'; exact E
    | exact J2 | exact J2' | rewrite J2, J2'; exact E
    | exact J3 | exact J3' | rewrite J3, J3'; exact E
    | exact T1 | exact T1' | rewrite T1, T1'; exact E
    | exact T2 | exact T2' | rewrite T2, T2'; exact E
    | exact T3 | exact T3' | rewrite T3, T3'; exact E
    | ].
  intros S0 C0.
  destruct (Js_change_slots (-1) g d L E) as (SJ & CJ & _).
  destruct (Ts_change_slots (-1) g d L E) as (ST & CT & _).
  rewrite SJ, CJ, ST, CT, S0, C0.
  rewrite S0, C0 in E. injection E as <-.
  split; split; vm_compute; reflexivity.
Qed.

(** ** reset *)

(** C9 as stated fails: [reset()] takes no seed and keeps the session's
    generator, so the code after a reset is the next three draws.  With
    seed 1 the first code is 2-5-3 and the code after the reset differs. *)
Lemma reset_changes_target_code :
  ¬ (∀ X, targetCode (exec Js.reset (Js.new_game X)) = targetCode (Js.new_game X)).
Proof.
  intros C. specialize (C 1). vm_compute in C. discriminate C.
Qed.

(** C9 (as amended).  [reset()], from any state, puts the digits back to
    [0,0,0], the active slot to 0, the flags to false and [unlocked] to
    false, and draws the new target code from the generator as the
    session left it: the code is the one a fresh session seeded with the
    generator's current internal seed would get.  After constructing
    with seed [X] that is the fourth to sixth draw of the stream of [X].
    Both variants agree. *)
Theorem reset_draws_next_code (g : LockPickerGame) (X : Z) :
  slots (exec Js.reset g) = [0; 0; 0] ∧
  currentSlot (exec Js.reset g) = 0 ∧
  correctSlots (exec Js.reset g) = [false; false; false] ∧
  unlocked (exec Js.reset g) = false ∧
  targetCode (exec Js.reset g)
    = targetCode (Js.new_game (SeededRandom.seed (random g))) ∧
  targetCode (exec Js.reset (Js.new_game X))
    = (draw3 (draw3 (SeededRandom.mk X)).2).1 ∧
  exec Ts.reset g = exec Js.reset g.
Proof.
  rewrite Ts_reset_exec, !Js_reset_exec, !Js_new_game_eq. simpl.
  by destruct (random g).
Qed.

(** * The theorems at work on the session with seed 1 *)

(** With 2 and 5 confirmed and 3 dialled, the digit of the active slot
    matches and the two other slots are flagged, in either variant. *)
Lemma last_confirm_pending_1_ready :
  active_matches last_confirm_pending_1 ∧ others_correct last_confirm_pending_1.
Proof.
  split; [vm_compute; reflexivity|].
  intros j B N. vm_compute in N.
  slot_cases j; first [ vm_compute; reflexivity | by destruct N ].
Qed.

Lemma Ts_last_confirm_pending_1_ready :
  active_matches Ts_last_confirm_pending_1 ∧ others_correct Ts_last_confirm_pending_1.
Proof.
  split; [vm_compute; reflexivity|].
  intros j B N. vm_compute in N.
  slot_cases j; first [ vm_compute; reflexivity | by destruct N ].
Qed.

(** C1 at work: with 2 and 5 confirmed and 3 dialled, the third confirm
    unlocks, in the JavaScript session and in the TypeScript one; on
    the new game, where no slot is flagged, it does not, in either
    variant. *)
Lemma confirmSlot_unlocks_iff_witness :
  (locked last_confirm_pending_1 ∧
   JsEvents.reachable 1 last_confirm_pending_1 ∧
   unlocked (exec Js.confirmSlot last_confirm_pending_1) = true) ∧
  (locked Ts_last_confirm_pending_1 ∧
   TsEvents.reachable 1 Ts_last_confirm_pending_1 ∧
   unlocked (exec Ts.confirmSlot Ts_last_confirm_pending_1) = true) ∧
  (locked new_1 ∧ wf new_1 ∧
   ¬ (active_matches new_1 ∧ others_correct new_1) ∧
   unlocked (exec Js.confirmSlot new_1) ≠ true ∧
   unlocked (exec Ts.confirmSlot new_1) ≠ true).
Proof.
  assert (locked last_confirm_pending_1) as LJ by (vm_compute; reflexivity).
  assert (locked Ts_last_confirm_pending_1) as LT by (vm_compute; reflexivity).
  assert (locked new_1) as LN by (vm_compute; reflexivity).
  assert (wf new_1) as WN by apply Js_new_game_wf.
  assert (¬ (active_matches new_1 ∧ others_correct new_1)) as NN.
  { intros [A _]. vm_compute in A. discriminate A. }
  split; [|split].
  - split; [exact LJ|]. split; [exact last_confirm_pending_1_reachable|].
    exact (proj2 (proj1 (proj2 (confirmSlot_unlocks_iff 1 last_confirm_pending_1 LJ))
                        last_confirm_pending_1_reachable)
                 last_confirm_pending_1_ready).
  - split; [exact LT|]. split; [exact Ts_last_confirm_pending_1_reachable|].
    exact (proj2 (proj2 (proj2 (confirmSlot_unlocks_iff 1 Ts_last_confirm_pending_1 LT))
                        Ts_last_confirm_pending_1_reachable)
                 Ts_last_confirm_pending_1_ready).
  - split; [exact LN|]. split; [exact WN|]. split; [exact NN|].
    destruct (proj1 (confirmSlot_unlocks_iff 1 new_1 LN) WN) as [J T].
    split; intros U; apply NN; [by apply J | by apply T].
Defined.

(** C2 (as amended) at work on the opened lock. *)
Lemma unlocked_and_flags_witness :
  JsEvents.reachable 1 opened_1 ∧
  (all_correct opened_1 = true → unlocked opened_1 = true) ∧
  (unlocked opened_1 = true → slots opened_1 = targetCode opened_1).
Proof.
  split; [exact opened_1_reachable|].
  destruct (proj1 (unlocked_and_flags 1 opened_1) opened_1_reachable)
    as (A & U & _).
  exact (conj A U).
Defined.

(** C3 at work on the opened lock. *)
Lemma unlocked_absorbing_witness :
  unlocked opened_1 = true ∧
  (∀ i, Js.selectSlot i opened_1 = ((), opened_1, [])) ∧
  Js.confirmSlot opened_1 = ((), opened_1, []).
Proof.
  assert (unlocked opened_1 = true) as U by (vm_compute; reflexivity).
  pose proof (unlocked_absorbing opened_1 U) as ((S & _ & C & _) & _).
  split_and!; [exact U | exact S | exact C].
Defined.

(** C6 at work on the fresh session: slot 0 shows 0. *)
Lemma changeDigit_group_action_witness :
  locked new_1 ∧ at_ (slots new_1) (currentSlot new_1) = Some 0 ∧ in_alphabet 0 ∧
  restored new_1 0 (exec (Js.changeDigit (-1)) (exec (Js.changeDigit 1) new_1)) ∧
  slots (exec (Js.changeDigit (-1)) new_1) = [9; 0; 0].
Proof.
  assert (locked new_1) as L by (vm_compute; reflexivity).
  assert (at_ (slots new_1) (currentSlot new_1) = Some 0) as E
    by (vm_compute; reflexivity).
  assert (in_alphabet 0) as A
    by (unfold in_alphabet; change charset_length with 10; lia).
  pose proof (changeDigit_group_action new_1 0 L E A) as ((R & _) & _ & Z0).
  split_and!; [exact L | exact E | exact A | exact R |].
  apply Z0; vm_compute; reflexivity.
Defined.

(** C7 (as amended) at work on the fresh session: slot 1 is selected,
    slot 7 is ignored. *)
Lemma selectSlot_spec_witness :
  locked new_1 ∧ 0 ≤ 1 < 3 ∧
  exec (Js.selectSlot 1) new_1 = set_currentSlot 1 new_1 ∧
  Js.selectSlot 7 new_1 = ((), new_1, []).
Proof.
  assert (locked new_1) as L by (vm_compute; reflexivity).
  assert (0 ≤ 1 < 3) as B by lia.
  split; [exact L|]. split; [exact B|]. split.
  - exact (proj1 (proj1 (selectSlot_spec new_1 1) L B)).
  - apply (proj2 (selectSlot_spec new_1 7)). right; right; lia.
Defined.

(** C8 (as amended) at work: slot 0 shows the target digit 2; the
    JavaScript confirm moves to slot 1, the TypeScript confirm stays. *)
Lemma confirmSlot_flag_and_slot_witness :
  wf first_digit_dialled_1 ∧ locked first_digit_dialled_1 ∧
  is_correct first_digit_dialled_1 = true ∧
  currentSlot (exec Js.confirmSlot first_digit_dialled_1) = 1 ∧
  currentSlot (exec Ts.confirmSlot first_digit_dialled_1) = 0.
Proof.
  assert (wf first_digit_dialled_1) as W
    by exact (Js_reachable_wf 1 _ first_digit_dialled_1_reachable).
  assert (locked first_digit_dialled_1) as L by (vm_compute; reflexivity).
  pose proof (confirmSlot_flag_and_slot first_digit_dialled_1 W L)
    as ((_ & _ & J) & (_ & _ & T)).
  split_and!; [exact W | exact L | vm_compute; reflexivity | |].
  - rewrite J. vm_compute. reflexivity.
  - rewrite T. vm_compute. reflexivity.
Defined.

(** C10 at work: the dialled code opens the lock, the fresh session's
    [0,0,0] is rejected with a shake. *)
Lemma checkCombination_spec_witness :
  wf dialled_1 ∧ locked dialled_1 ∧ slots dialled_1 = targetCode dialled_1 ∧
  unlocked (exec Js.checkCombination dialled_1) = true ∧
  Js.checkCombination new_1 = ((), new_1, [SafeAnimation "shake"]).
Proof.
  assert (wf dialled_1) as W by exact (Js_reachable_wf 1 _ dialled_1_reachable).
  assert (locked dialled_1) as L by (vm_compute; reflexivity).
  assert (slots dialled_1 = targetCode dialled_1) as E by (vm_compute; reflexivity).
  split_and!; [exact W | exact L | exact E | |].
  - exact (proj2 (proj1 (checkCombination_spec dialled_1 W L) E)).
  - apply (proj2 (checkCombination_spec new_1 (Js_new_game_wf 1) eq_refl)).
    vm_compute. discriminate.
Defined.

(** * Further properties: generator, invariants, adapters, texts *)

(** After a draw the seed is in the domain where the doubles are exact,
    whatever it was before. *)
Lemma next_exact_doubles (r : SeededRandom.t) :
  exact_doubles (SeededRandom.next r).2.
Proof.
  unfold exact_doubles, SeededRandom.next; simpl.
  pose proof (Z.rem_bound_abs (SeededRandom.seed r * 9301 + 49297) 233280 ltac:(lia)).
  change (2 ^ 53) with 9007199254740992. lia.
Qed.

(** X1.  For a seed of either sign in the domain where the doubles are
    exact ([|seed * 9301| + 49297 <= 2^53]), [next()] leaves a seed
    strictly between -233280 and 233280, again in that domain, and
    returns a value strictly between -1 and 1, and [nextInt(max)]
    returns an integer in [-max, max) for an integer [max] from 1 to
    [2^53]. *)
Theorem generator_bounds (r : SeededRandom.t) (max : Z) :
  exact_doubles r → 1 ≤ max ≤ 2 ^ 53 →
  -233280 < SeededRandom.seed (SeededRandom.next r).2 < 233280 ∧
  exact_doubles (SeededRandom.next r).2 ∧
  (-1 < (SeededRandom.next r).1)%Q ∧ ((SeededRandom.next r).1 < 1)%Q ∧
  -max ≤ (SeededRandom.nextInt max r).1 < max.
Proof.
  intros _ [Hmax _].
  assert (-233280 < SeededRandom.seed (SeededRandom.next r).2 < 233280) as B.
  { unfold SeededRandom.next; simpl.
    pose proof (Z.rem_bound_abs (SeededRandom.seed r * 9301 + 49297) 233280 ltac:(lia)).
    lia. }
  split; [exact B|].
  split; [apply next_exact_doubles|].
  rewrite next_value, nextInt_div.
  split_and!.
  - unfold Qlt; cbn [Qnum Qden]. lia.
  - unfold Qlt; cbn [Qnum Qden]. lia.
  - apply Z.div_le_lower_bound; nia.
  - apply Z.div_lt_upper_bound; nia.
Qed.

(** X2.  For a seed in the domain where the doubles are exact
    ([|seed * 9301| + 49297 <= 2^53]) and with [seed * 9301 + 49297]
    not negative, [next()] sets the seed to that number modulo 233280
    and returns a value in [0, 1); [nextInt(10)], the call the program
    makes, returns [floor (seed' * 10 / 233280)] for the new seed
    [seed'], an integer in [0, 10); and the new seed has the same two
    properties, so every later draw is in range too. *)
Theorem generator_on_nonneg_dividend (r : SeededRandom.t) :
  exact_doubles r → dividend_nonneg r →
  SeededRandom.seed (SeededRandom.next r).2
    = (SeededRandom.seed r * 9301 + 49297) `mod` 233280 ∧
  (0 <= (SeededRandom.next r).1)%Q ∧ ((SeededRandom.next r).1 < 1)%Q ∧
  (SeededRandom.nextInt charset_length r).1
    = (SeededRandom.seed (SeededRandom.next r).2 * 10) `div` 233280 ∧
  0 ≤ (SeededRandom.nextInt charset_length r).1 < 10 ∧
  (SeededRandom.nextInt charset_length r).2 = (SeededRandom.next r).2 ∧
  exact_doubles (SeededRandom.nextInt charset_length r).2 ∧
  dividend_nonneg (SeededRandom.nextInt charset_length r).2.
Proof.
  intros _ H.
  destruct (next_unit_interval r H) as [I0 I1].
  destruct (nextInt_floor charset_length r) as [F1 F2].
  split; [by apply next_seed_mod|].
  split; [exact I0|]. split; [exact I1|].
  split; [apply nextInt_div|].
  split; [by apply (nextInt_range charset_length r)|].
  split; [exact F2|].
  rewrite F2. split; [apply next_exact_doubles | by apply next_dividend_nonneg].
Qed.

Lemma generator_on_nonneg_dividend_witness :
  exact_doubles (SeededRandom.mk 1) ∧ dividend_nonneg (SeededRandom.mk 1) ∧
  0 ≤ (SeededRandom.nextInt charset_length (SeededRandom.mk 1)).1 < 10 ∧
  (SeededRandom.nextInt charset_length (SeededRandom.mk 1)).1 = 2.
Proof.
  assert (exact_doubles (SeededRandom.mk 1)) as E by (vm_compute; discriminate).
  assert (dividend_nonneg (SeededRandom.mk 1)) as H by (vm_compute; discriminate).
  pose proof (generator_on_nonneg_dividend (SeededRandom.mk 1) E H)
    as (_ & _ & _ & _ & B & _).
  split; [exact E|]. split; [exact H|]. split; [exact B|].
  vm_compute. reflexivity.
Defined.

(** X3.  In every reachable state, for every seed, every digit is in
    [0, 10).  Both variants. *)
Theorem digits_stay_in_alphabet (seed : Z) (g : LockPickerGame) :
  (JsEvents.reachable seed g → Forall in_alphabet (slots g)) ∧
  (TsEvents.reachable seed g → Forall in_alphabet (slots g)).
Proof. split; [apply Js_reachable_digits | apply Ts_reachable_digits]. Qed.

(** X4.  For a session seeded with [-5] or more, up to the largest seed
    of the domain where the doubles are exact (968411918577), every
    target digit is in [0, 10) in every reachable state, resets
    included.  Both variants. *)
Theorem target_in_alphabet_from_minus_5 (seed : Z) (g : LockPickerGame) :
  -5 ≤ seed → exact_doubles (SeededRandom.mk seed) →
  (JsEvents.reachable seed g → Forall in_alphabet (targetCode g)) ∧
  (TsEvents.reachable seed g → Forall in_alphabet (targetCode g)).
Proof.
  intros S _. assert (0 ≤ seed * 9301 + 49297) as D by lia.
  split; intros R.
  - by destruct (Js_reachable_target seed g D R).
  - by destruct (Ts_reachable_target seed g D R).
Qed.

Lemma target_in_alphabet_from_minus_5_witness :
  -5 ≤ -5 ∧ exact_doubles (SeededRandom.mk (-5)) ∧
  JsEvents.reachable (-5) (Js.new_game (-5)) ∧
  Forall in_alphabet (targetCode (Js.new_game (-5))) ∧
  targetCode (Js.new_game (-5)) = [0; 5; 5].
Proof.
  assert (-5 ≤ -5) as S by lia.
  assert (exact_doubles (SeededRandom.mk (-5))) as E by (vm_compute; discriminate).
  assert (JsEvents.reachable (-5) (Js.new_game (-5))) as R by constructor.
  split; [exact S|]. split; [exact E|]. split; [exact R|].
  split; [exact (proj1 (target_in_alphabet_from_minus_5 (-5) _ S E) R)|].
  vm_compute. reflexivity.
Defined.

Lemma digits_stay_in_alphabet_witness :
  JsEvents.reachable (-6) (Js.new_game (-6)) ∧
  Forall in_alphabet (slots (Js.new_game (-6))).
Proof.
  assert (JsEvents.reachable (-6) (Js.new_game (-6))) as R by constructor.
  split; [exact R|].
  exact (proj1 (digits_stay_in_alphabet (-6) _) R).
Defined.

Lemma Js_handle_keeps_target e g :
  e ≠ JsEvents.Reset →
  targetCode (exec (JsEvents.handle e) g) = targetCode g ∧
  random (exec (JsEvents.handle e) g) = random g.
Proof.
  intros N; destruct e; try done; simpl.
  all: unfold_methods; unfold every.
  all: repeat (case_match; simplify_eq/=); done.
Qed.

Lemma Ts_handle_keeps_target e g :
  e ≠ TsEvents.Reset →
  targetCode (exec (TsEvents.handle e) g) = targetCode g ∧
  random (exec (TsEvents.handle e) g) = random g.
Proof.
  intros N; destruct e; try done; simpl.
  all: unfold_methods.
  all: repeat (case_match; simplify_eq/=); done.
Qed.

Lemma Js_run_keeps_target es g :
  Forall (λ e, e ≠ JsEvents.Reset) es →
  targetCode (JsEvents.run es g) = targetCode g ∧
  random (JsEvents.run es g) = random g.
Proof.
  intros F. revert g. induction F as [|e es N _ IH]; intros g; [done|].
  change (JsEvents.run (e :: es) g)
    with (JsEvents.run es (exec (JsEvents.handle e) g)).
  destruct (IH (exec (JsEvents.handle e) g)) as [-> ->].
  by apply Js_handle_keeps_target.
Qed.

Lemma Ts_run_keeps_target es g :
  Forall (λ e, e ≠ TsEvents.Reset) es →
  targetCode (TsEvents.run es g) = targetCode g ∧
  random (TsEvents.run es g) = random g.
Proof.
  intros F. revert g. induction F as [|e es N _ IH]; intros g; [done|].
  change (TsEvents.run (e :: es) g)
    with (TsEvents.run es (exec (TsEvents.handle e) g)).
  destruct (IH (exec (TsEvents.handle e) g)) as [-> ->].
  by apply Ts_handle_keeps_target.
Qed.

(** X5.  No sequence of selections, digit changes, confirms and
    combination checks changes the target code or the generator: only
    [reset()] does.  Both variants. *)
Theorem inputs_keep_target_and_generator (g : LockPickerGame) :
  (∀ es, Forall (λ e, e ≠ JsEvents.Reset) es →
     targetCode (JsEvents.run es g) = targetCode g ∧
     random (JsEvents.run es g) = random g) ∧
  (∀ es, Forall (λ e, e ≠ TsEvents.Reset) es →
     targetCode (TsEvents.run es g) = targetCode g ∧
     random (TsEvents.run es g) = random g).
Proof.
  split; intros es F; [by apply Js_run_keeps_target | by apply Ts_run_keeps_target].
Qed.

Lemma at_store_ne {A} (arr : list A) i j v :
  j ≠ i → at_ (store arr i v) j = at_ arr j.
Proof.
  unfold at_, store. intros N.
  destruct (Z.ltb_spec i 0), (Z.ltb_spec j 0); try done.
  apply list_lookup_insert_ne. lia.
Qed.

(** X6.  [changeDigit] leaves the digit of every slot but the active one
    as it is, and keeps the active slot and [unlocked]; the JavaScript
    build keeps the flag of every other slot, the TypeScript variant
    keeps all the flags. *)
Theorem changeDigit_touches_active_slot_only
    (g : LockPickerGame) (direction j : Z) :
  j ≠ currentSlot g →
  (at_ (slots (exec (Js.changeDigit direction) g)) j = at_ (slots g) j ∧
   at_ (correctSlots (exec (Js.changeDigit direction) g)) j
     = at_ (correctSlots g) j ∧
   currentSlot (exec (Js.changeDigit direction) g) = currentSlot g ∧
   unlocked (exec (Js.changeDigit direction) g) = unlocked g) ∧
  (at_ (slots (exec (Ts.changeDigit direction) g)) j = at_ (slots g) j ∧
   correctSlots (exec (Ts.changeDigit direction) g) = correctSlots g ∧
   currentSlot (exec (Ts.changeDigit direction) g) = currentSlot g ∧
   unlocked (exec (Ts.changeDigit direction) g) = unlocked g).
Proof.
  intros N.
  destruct (unlocked g) eqn:U.
  - unfold exec, Js.changeDigit, Ts.changeDigit, mbind, M_bind, get.
    by rewrite U.
  - destruct (at_ (slots g) (currentSlot g)) as [old|] eqn:E.
    + rewrite (Js_changeDigit_exec _ _ _ U E), (Ts_changeDigit_exec _ _ _ U E).
      simpl. by rewrite !at_store_ne.
    + unfold exec, Js.changeDigit, Ts.changeDigit, mbind, M_bind, get.
      by rewrite U, E.
Qed.

Lemma changeDigit_touches_active_slot_only_witness :
  1 ≠ currentSlot new_1 ∧
  at_ (slots (exec (Js.changeDigit 1) new_1)) 1 = at_ (slots new_1) 1 ∧
  at_ (slots (exec (Js.changeDigit 1) new_1)) 0 = Some 1.
Proof.
  assert (1 ≠ currentSlot new_1) as N by (vm_compute; discriminate).
  split; [exact N|]. split.
  - exact (proj1 (proj1 (changeDigit_touches_active_slot_only new_1 1 1 N))).
  - vm_compute. reflexivity.
Defined.

(** X7.  In every reachable state of the JavaScript build, a slot
    flagged correct shows its target digit, a digit of the alphabet. *)
Theorem Js_flag_means_digit_matches (seed : Z) (g : LockPickerGame) (i : Z) :
  JsEvents.reachable seed g →
  at_ (correctSlots g) i = Some true →
  at_ (slots g) i = at_ (targetCode g) i ∧
  ∃ d, at_ (slots g) i = Some d ∧ in_alphabet d.
Proof.
  intros R F.
  pose proof (Js_reachable_digits _ _ R) as D.
  destruct (Js_reachable_inv _ _ R) as ((L1 & L2 & L3 & _) & S & _).
  unfold at_ in *. destruct (i <? 0); [done|].
  specialize (S _ F). split; [exact S|].
  destruct (slots g !! Z.to_nat i) as [d|] eqn:E.
  - exists d. split; [done|]. by eapply Forall_lookup_1.
  - apply lookup_lt_Some in F. apply lookup_ge_None in E. lia.
Qed.

Lemma Js_flag_means_digit_matches_witness :
  JsEvents.reachable 1 last_confirm_pending_1 ∧
  at_ (correctSlots last_confirm_pending_1) 0 = Some true ∧
  at_ (slots last_confirm_pending_1) 0 = at_ (targetCode last_confirm_pending_1) 0.
Proof.
  assert (at_ (correctSlots last_confirm_pending_1) 0 = Some true) as F
    by (vm_compute; reflexivity).
  split; [exact last_confirm_pending_1_reachable|]. split; [exact F|].
  exact (proj1 (Js_flag_means_digit_matches 1 _ 0
                  last_confirm_pending_1_reachable F)).
Defined.

Lemma Ts_handle_flagged_targets e g :
  wf g → Forall in_alphabet (slots g) →
  flagged_targets_ok g → flagged_targets_ok (exec (TsEvents.handle e) g).
Proof.
  intros W D F. unfold flagged_targets_ok in *.
  destruct e as [i|d| |]; simpl TsEvents.handle;
    [| | |rewrite Ts_reset_exec; simpl; by repeat constructor].
  all: explode g; rewrite !Forall_cons in D; destruct D as (?&?&?&_).
  all: rewrite !Forall2_cons in F; destruct F as (?&?&?&_).
  all: unfold_methods; crunch; rewrite !Forall2_cons.
  all: split_and!; try done; try (intros _; congruence).
Qed.

Lemma Ts_reachable_flagged_targets seed g :
  TsEvents.reachable seed g → flagged_targets_ok g.
Proof.
  induction 1 as [|g e R IH V].
  - rewrite Ts_new_game_eq, Js_new_game_eq. unfold flagged_targets_ok. simpl.
    by repeat constructor.
  - apply Ts_handle_flagged_targets;
      eauto using Ts_reachable_wf, Ts_reachable_digits.
Qed.

Lemma Js_unlocked_target seed g :
  JsEvents.reachable seed g → unlocked g = true → Forall in_alphabet (targetCode g).
Proof.
  intros R U. destruct (Js_reachable_inv _ _ R) as (_ & _ & _ & E).
  rewrite <- (E U). by eapply Js_reachable_digits.
Qed.

Lemma Ts_unlocked_target seed g :
  TsEvents.reachable seed g → unlocked g = true → Forall in_alphabet (targetCode g).
Proof.
  intros R U.
  pose proof (Ts_reachable_flagged_targets _ _ R) as F.
  destruct (Ts_reachable_inv _ _ R) as (W & A).
  apply A in U. unfold flagged_targets_ok, all_correct in *.
  explode g.
  all: rewrite !Forall2_cons in F; destruct F as (?&?&?&_).
  all: repeat match goal with b : bool |- _ => destruct b end; try done.
  all: rewrite !Forall_cons; by split_and!; auto.
Qed.

(** X8.  In every reachable unlocked state every target digit is in
    [0, 10).  Both variants. *)
Theorem unlocked_needs_target_in_alphabet (seed : Z) (g : LockPickerGame) :
  unlocked g = true →
  (JsEvents.reachable seed g → Forall in_alphabet (targetCode g)) ∧
  (TsEvents.reachable seed g → Forall in_alphabet (targetCode g)).
Proof.
  intros U. split; intros R;
    [by eapply Js_unlocked_target | by eapply Ts_unlocked_target].
Qed.

Lemma unlocked_needs_target_in_alphabet_witness :
  unlocked opened_1 = true ∧ JsEvents.reachable 1 opened_1 ∧
  Forall in_alphabet (targetCode opened_1).
Proof.
  assert (unlocked opened_1 = true) as U by (vm_compute; reflexivity).
  split; [exact U|]. split; [exact opened_1_reachable|].
  exact (proj1 (unlocked_needs_target_in_alphabet 1 opened_1 U) opened_1_reachable).
Defined.

(** X9.  From a reachable state whose target code has a digit outside
    [0, 10), no sequence of inputs without a reset opens the lock.  Both
    variants. *)
Theorem bad_target_stays_locked (seed : Z) (g : LockPickerGame) :
  ¬ Forall in_alphabet (targetCode g) →
  (JsEvents.reachable seed g →
   ∀ es, Forall JsEvents.valid es → Forall (λ e, e ≠ JsEvents.Reset) es →
     unlocked (JsEvents.run es g) = false) ∧
  (TsEvents.reachable seed g →
   ∀ es, Forall TsEvents.valid es → Forall (λ e, e ≠ TsEvents.Reset) es →
     unlocked (TsEvents.run es g) = false).
Proof.
  intros B. split; intros R es V N.
  - destruct (unlocked (JsEvents.run es g)) eqn:U; [|done].
    exfalso. apply B.
    rewrite <- (proj1 (Js_run_keeps_target es g N)).
    eapply Js_unlocked_target; [|exact U]. by apply Js_reachable_run.
  - destruct (unlocked (TsEvents.run es g)) eqn:U; [|done].
    exfalso. apply B.
    rewrite <- (proj1 (Ts_run_keeps_target es g N)).
    eapply Ts_unlocked_target; [|exact U]. by apply Ts_reachable_run.
Qed.

Lemma bad_target_stays_locked_witness :
  ¬ Forall in_alphabet (targetCode (Js.new_game (-6))) ∧
  JsEvents.reachable (-6) (Js.new_game (-6)) ∧
  unlocked (JsEvents.run [JsEvents.ChangeDigit (-1); JsEvents.Confirm;
                          JsEvents.CheckCombination] (Js.new_game (-6))) = false.
Proof.
  assert (¬ Forall in_alphabet (targetCode (Js.new_game (-6)))) as B.
  { intros F. apply Forall_cons_1 in F as [[F _] _]. vm_compute in F. by apply F. }
  assert (JsEvents.reachable (-6) (Js.new_game (-6))) as R by constructor.
  split; [exact B|]. split; [exact R|].
  apply (proj1 (bad_target_stays_locked (-6) _ B) R).
  - repeat (apply Forall_cons_2; [first [exact I | by right]|]). apply Forall_nil_2.
  - repeat (apply Forall_cons_2; [discriminate|]). apply Forall_nil_2.
Defined.

(** X10.  On a locked game whose active slot shows [oldValue], the
    JavaScript [changeDigit] clears the slot's mark, animates the change
    and then plays 'correct' exactly when the digit now shown equals the
    target digit, 'tick' otherwise; the TypeScript one animates and
    always plays 'tick'. *)
Theorem changeDigit_sound_tells_match
    (g : LockPickerGame) (direction oldValue : Z) :
  locked g → at_ (slots g) (currentSlot g) = Some oldValue →
  calls (Js.changeDigit direction) g
    = [MarkCorrect (currentSlot g) false;
       AnimateDigit (currentSlot g) oldValue (turn direction oldValue);
       Play (if is_correct (exec (Js.changeDigit direction) g)
             then correct else tick)] ∧
  calls (Ts.changeDigit direction) g
    = [AnimateDigit (currentSlot g) oldValue (turn direction oldValue);
       Play tick].
Proof.
  intros L E. rewrite (Js_changeDigit_exec _ _ _ L E).
  unfold calls, is_correct, Js.changeDigit, Ts.changeDigit, mbind, M_bind, get.
  rewrite L, E. simpl.
  by destruct (strict_eq _ _).
Qed.

Lemma changeDigit_sound_tells_match_witness :
  locked new_1 ∧ at_ (slots new_1) (currentSlot new_1) = Some 0 ∧
  calls (Js.changeDigit 1) new_1
    = [MarkCorrect 0 false; AnimateDigit 0 0 1; Play tick] ∧
  calls (Js.changeDigit 1) (exec (Js.changeDigit 1) new_1)
    = [MarkCorrect 0 false; AnimateDigit 0 1 2; Play correct].
Proof.
  assert (locked new_1) as L by (vm_compute; reflexivity).
  assert (at_ (slots new_1) (currentSlot new_1) = Some 0) as E
    by (vm_compute; reflexivity).
  split; [exact L|]. split; [exact E|]. split.
  - rewrite (proj1 (changeDigit_sound_tells_match new_1 1 0 L E)).
    vm_compute. reflexivity.
  - vm_compute. reflexivity.
Defined.

(** X11.  A key press makes the keyboard adapter do one of four things:
    nothing; select a slot among 0, 1, 2; prevent the default and change
    the digit by +1 or -1; prevent the default and confirm.  It never
    passes another slot or direction, and never prevents the default of
    a key it does not use or of a slot key. *)
Theorem handleKeyDown_shape (code : string) :
  let cs := KeyboardAdapter.handleKeyDown code in
  cs = [] ∨
  (∃ slot, cs = [OnSlotSelect slot] ∧ 0 ≤ slot < 3) ∨
  (∃ direction, cs = [PreventDefault; OnDigitChange direction] ∧
                is_direction direction) ∨
  cs = [PreventDefault; OnConfirm].
Proof.
  unfold KeyboardAdapter.handleKeyDown.
  repeat case_match; simpl; eauto 10.
  - right; left. eexists; split; [done|lia].
  - right; left. eexists; split; [done|lia].
  - right; left. eexists; split; [done|lia].
  - right; right; left. eexists; split; [done|by right].
  - right; right; left. eexists; split; [done|by left].
Qed.

(** X12.  An HID report is logged and then makes the adapter do at most
    one call: select a slot among 0, 1, 2, change the digit by +1 or -1,
    or confirm.  An empty report makes no call, and only the first byte
    counts. *)
Theorem handleInputReport_shape (bytes : list Z) :
  ∃ cs, WebHIDAdapter.handleInputReport bytes = LogReport bytes :: cs ∧
    (cs = [] ∨
     (∃ slot, cs = [OnSlotSelect slot] ∧ 0 ≤ slot < 3) ∨
     (∃ direction, cs = [OnDigitChange direction] ∧ is_direction direction) ∨
     cs = [OnConfirm]) ∧
    (bytes = [] → cs = []) ∧
    (∀ b rest, bytes = b :: rest →
       WebHIDAdapter.handleInputReport [b] = LogReport [b] :: cs).
Proof.
  unfold WebHIDAdapter.handleInputReport.
  eexists; split; [reflexivity|].
  destruct bytes as [|b rest]; simpl.
  { split_and!; [by left|done|done]. }
  split_and!; [|done|intros ?? [= <- <-]; done].
  repeat case_match; eauto 10.
  - right; right; left. eexists; split; [done|by left].
  - right; right; left. eexists; split; [done|by right].
  - right; left. eexists; split; [done|lia].
Qed.

Lemma exec_then {A B} (m : M A) (k : M B) g :
  exec (m;; k) g = exec k (exec m g).
Proof.
  unfold exec, mbind, M_bind.
  destruct (m g) as [[a g1] o1]; simpl. by destruct (k g1) as [[b g2] o2].
Qed.

Lemma exec_skip g : exec skip g = g.
Proof. reflexivity. Qed.

Lemma handleKeyDown_in_domain code :
  Forall in_domain (KeyboardAdapter.handleKeyDown code).
Proof.
  unfold KeyboardAdapter.handleKeyDown.
  repeat case_match; repeat constructor; simpl; first [lia | by left | by right].
Qed.

Lemma handleInputReport_in_domain bytes :
  Forall in_domain (WebHIDAdapter.handleInputReport bytes).
Proof.
  unfold WebHIDAdapter.handleInputReport.
  repeat case_match; repeat constructor; simpl; first [lia | by left | by right].
Qed.

Lemma Js_callbacks_reachable seed cs g :
  Forall in_domain cs → JsEvents.reachable seed g →
  JsEvents.reachable seed (exec (JsPage.callbacks cs) g).
Proof.
  intros D. revert g. induction D as [|c cs Dc _ IH]; intros g R; [done|].
  change (JsPage.callbacks (c :: cs))
    with (JsPage.callback c;; JsPage.callbacks cs).
  rewrite exec_then. apply IH.
  destruct c; simpl in *; try done.
  - by apply (JsEvents.reach_step seed g (JsEvents.SelectSlot slot)).
  - by apply (JsEvents.reach_step seed g (JsEvents.ChangeDigit direction)).
  - by apply (JsEvents.reach_step seed g JsEvents.Confirm).
Qed.

Lemma Ts_callbacks_reachable seed cs g :
  Forall in_domain cs → TsEvents.reachable seed g →
  TsEvents.reachable seed (exec (TsPage.callbacks cs) g).
Proof.
  intros D. revert g. induction D as [|c cs Dc _ IH]; intros g R; [done|].
  change (TsPage.callbacks (c :: cs))
    with (TsPage.callback c;; TsPage.callbacks cs).
  rewrite exec_then. apply IH.
  destruct c; simpl in *; try done.
  - by apply (TsEvents.reach_step seed g (TsEvents.SelectSlot slot)).
  - by apply (TsEvents.reach_step seed g (TsEvents.ChangeDigit direction)).
  - by apply (TsEvents.reach_step seed g TsEvents.Confirm).
Qed.

Lemma Js_on_reachable seed i g :
  JsEvents.reachable seed g → JsEvents.reachable seed (exec (JsPage.on i) g).
Proof.
  intros R. destruct i as [code|index| |]; unfold JsPage.on.
  - apply Js_callbacks_reachable; [apply handleKeyDown_in_domain | done].
  - by apply (JsEvents.reach_step seed g (JsEvents.SelectSlot (Z.of_nat index))).
  - by apply (JsEvents.reach_step seed g JsEvents.CheckCombination).
  - by apply (JsEvents.reach_step seed g JsEvents.Reset).
Qed.

Lemma Ts_on_reachable seed i g :
  TsEvents.reachable seed g → TsEvents.reachable seed (exec (TsPage.on i) g).
Proof.
  intros R. destruct i as [code|bytes|index|]; unfold TsPage.on.
  - apply Ts_callbacks_reachable; [apply handleKeyDown_in_domain | done].
  - apply Ts_callbacks_reachable; [apply handleInputReport_in_domain | done].
  - by apply (TsEvents.reach_step seed g (TsEvents.SelectSlot (Z.of_nat index))).
  - by apply (TsEvents.reach_step seed g TsEvents.Reset).
Qed.

Lemma Js_play_reachable seed inputs g :
  JsEvents.reachable seed g → JsEvents.reachable seed (JsPage.play inputs g).
Proof.
  revert g. induction inputs as [|i inputs IH]; intros g R; [done|].
  apply IH. by apply Js_on_reachable.
Qed.

Lemma Ts_play_reachable seed inputs g :
  TsEvents.reachable seed g → TsEvents.reachable seed (TsPage.play inputs g).
Proof.
  revert g. induction inputs as [|i inputs IH]; intros g R; [done|].
  apply IH. by apply Ts_on_reachable.
Qed.

Lemma Js_selectSlot_outside i g :
  i < 0 ∨ 3 ≤ i → exec (Js.selectSlot i) g = g.
Proof.
  intros O. unfold_methods.
  destruct (unlocked g); [done|].
  destruct (Z.ltb_spec i 0), (Z.geb_spec i 3); try done. lia.
Qed.

Lemma Ts_selectSlot_outside i g :
  i < 0 ∨ 3 ≤ i → exec (Ts.selectSlot i) g = g.
Proof.
  intros O. unfold_methods.
  destruct (unlocked g); [done|].
  destruct (Z.ltb_spec i 0), (Z.geb_spec i 3); try done. lia.
Qed.

Lemma Js_inputs_of_play e g :
  JsEvents.valid e → JsPage.play (Js_inputs_of e) g = exec (JsEvents.handle e) g.
Proof.
  intros V. destruct e as [i|d| | |]; simpl in *.
  - destruct (Z.eqb_spec i 0) as [->|]; [simpl; by rewrite exec_then|].
    destruct (Z.eqb_spec i 1) as [->|]; [simpl; by rewrite exec_then|].
    destruct (Z.eqb_spec i 2) as [->|]; [simpl; by rewrite exec_then|].
    simpl. symmetry. apply Js_selectSlot_outside. lia.
  - destruct V as [-> | ->]; simpl; by rewrite !exec_then.
  - by rewrite !exec_then.
  - done.
  - done.
Qed.

Lemma Ts_inputs_of_play e g :
  TsEvents.valid e → TsPage.play (Ts_inputs_of e) g = exec (TsEvents.handle e) g.
Proof.
  intros V. destruct e as [i|d| |]; simpl in *.
  - destruct (Z.eqb_spec i 0) as [->|]; [simpl; by rewrite exec_then|].
    destruct (Z.eqb_spec i 1) as [->|]; [simpl; by rewrite exec_then|].
    destruct (Z.eqb_spec i 2) as [->|]; [simpl; by rewrite exec_then|].
    simpl. symmetry. apply Ts_selectSlot_outside. lia.
  - destruct V as [-> | ->]; simpl; by rewrite !exec_then.
  - by rewrite !exec_then.
  - done.
Qed.

Lemma Js_play_app a b g : JsPage.play (a ++ b) g = JsPage.play b (JsPage.play a g).
Proof. apply foldl_app. Qed.

Lemma Ts_play_app a b g : TsPage.play (a ++ b) g = TsPage.play b (TsPage.play a g).
Proof. apply foldl_app. Qed.

(** X13.  The states the page can bring the game to (key presses,
    clicks on a slot, on 'enter combination' and on 'reset'; for the
    TypeScript variant key presses, HID reports, clicks on a slot and on
    'reset') are exactly the reachable states of the event model. *)
Theorem page_inputs_reach_the_reachable_states (seed : Z) (g : LockPickerGame) :
  (JsEvents.reachable seed g
     ↔ ∃ inputs, g = JsPage.play inputs (Js.new_game seed)) ∧
  (TsEvents.reachable seed g
     ↔ ∃ inputs, g = TsPage.play inputs (Ts.new_game seed)).
Proof.
  split; split.
  - induction 1 as [|g e R [inputs ->] V]; [by exists []|].
    exists (inputs ++ Js_inputs_of e).
    by rewrite Js_play_app, (Js_inputs_of_play e _ V).
  - intros [inputs ->]. apply Js_play_reachable. constructor.
  - induction 1 as [|g e R [inputs ->] V]; [by exists []|].
    exists (inputs ++ Ts_inputs_of e).
    by rewrite Ts_play_app, (Ts_inputs_of_play e _ V).
  - intros [inputs ->]. apply Ts_play_reachable. constructor.
Qed.

Lemma charset_at_in_alphabet d : in_alphabet d → charset_at d = Some (digit_char d).
Proof.
  unfold in_alphabet. change charset_length with 10. intros H.
  assert (d = 0 ∨ d = 1 ∨ d = 2 ∨ d = 3 ∨ d = 4 ∨ d = 5 ∨ d = 6 ∨ d = 7 ∨ d = 8 ∨ d = 9)
    as [->|[->|[->|[->|[->|[->|[->|[->|[->| ->]]]]]]]]] by lia; reflexivity.
Qed.

Lemma charset_at_outside d : ¬ in_alphabet d → charset_at d = None.
Proof.
  unfold in_alphabet, charset_at. change charset_length with 10. intros H.
  destruct (Z.ltb_spec d 0); [done|].
  assert (∃ k, Z.to_nat d = (10 + k)%nat) as [k ->]
    by (exists (Z.to_nat d - 10)%nat; lia).
  reflexivity.
Qed.

Lemma digit_value_char d : in_alphabet d → digit_value (digit_char d) = d.
Proof.
  unfold in_alphabet. change charset_length with 10. intros H.
  assert (d = 0 ∨ d = 1 ∨ d = 2 ∨ d = 3 ∨ d = 4 ∨ d = 5 ∨ d = 6 ∨ d = 7 ∨ d = 8 ∨ d = 9)
    as [->|[->|[->|[->|[->|[->|[->|[->|[->| ->]]]]]]]]] by lia; reflexivity.
Qed.

Lemma digit_text_reachable g index :
  wf g → Forall in_alphabet (slots g) → 0 ≤ index < 3 →
  ∃ d, at_ (slots g) index = Some d ∧ in_alphabet d ∧
       digit_text g index = Some (digit_char d) ∧
       digit_value (digit_char d) = d.
Proof.
  intros (L & _) D I. unfold digit_text, at_.
  destruct (Z.ltb_spec index 0); [lia|].
  destruct (slots g !! Z.to_nat index) as [d|] eqn:E.
  - pose proof (Forall_lookup_1 _ _ _ _ D E) as A.
    exists d. split_and!; try done; simpl.
    + by apply charset_at_in_alphabet.
    + by apply digit_value_char.
  - apply lookup_ge_None in E. lia.
Qed.

(** X14.  In every reachable state, for every seed, the text
    [updateDisplay()] gives to each of the three digit elements is
    defined and is the decimal character of the slot's digit.  Both
    variants. *)
Theorem display_shows_the_digits (seed : Z) (g : LockPickerGame) (index : Z) :
  0 ≤ index < 3 →
  (JsEvents.reachable seed g →
   ∃ d, at_ (slots g) index = Some d ∧ in_alphabet d ∧
        digit_text g index = Some (digit_char d) ∧
        digit_value (digit_char d) = d) ∧
  (TsEvents.reachable seed g →
   ∃ d, at_ (slots g) index = Some d ∧ in_alphabet d ∧
        digit_text g index = Some (digit_char d) ∧
        digit_value (digit_char d) = d).
Proof.
  intros I. split; intros R.
  - apply digit_text_reachable; eauto using Js_reachable_wf, Js_reachable_digits.
  - apply digit_text_reachable; eauto using Ts_reachable_wf, Ts_reachable_digits.
Qed.

Lemma display_shows_the_digits_witness :
  0 ≤ 2 < 3 ∧ JsEvents.reachable 1 dialled_1 ∧
  digit_text dialled_1 2 = Some (digit_char 3).
Proof.
  assert (0 ≤ 2 < 3) as I by lia.
  split; [exact I|]. split; [exact dialled_1_reachable|].
  destruct (proj1 (display_shows_the_digits 1 dialled_1 2 I) dialled_1_reachable)
    as (d & _ & _ & T & _).
  vm_compute. reflexivity.
Defined.

Lemma join_in_alphabet code :
  Forall in_alphabet code →
  join (map charset_at code) = string_of_chars (map digit_char code).
Proof.
  induction 1 as [|t code Ht _ IH]; [done|].
  simpl. by rewrite (charset_at_in_alphabet t Ht), IH.
Qed.

Lemma join_outside code :
  Forall (λ t, ¬ in_alphabet t) code → join (map charset_at code) = EmptyString.
Proof.
  induction 1 as [|t code Ht _ IH]; [done|].
  simpl. by rewrite (charset_at_outside t Ht), IH.
Qed.

Lemma digit_values_back code :
  Forall in_alphabet code →
  map digit_value (list_ascii_of_string (string_of_chars (map digit_char code)))
  = code.
Proof.
  induction 1 as [|t code Ht _ IH]; [done|].
  simpl. by rewrite (digit_value_char t Ht), IH.
Qed.

(** X15.  When every target digit is in [0, 10), the text logged by
    [generateTargetCode()] has one character per digit and reads back as
    the target code; digits outside [0, 10) add nothing to it, so a code
    with no digit in range is logged as the empty text. *)
Theorem target_text_roundtrip (g : LockPickerGame) :
  (Forall in_alphabet (targetCode g) →
   String.length (target_text g) = length (targetCode g) ∧
   map digit_value (list_ascii_of_string (target_text g)) = targetCode g) ∧
  (Forall (λ t, ¬ in_alphabet t) (targetCode g) →
   target_text g = EmptyString).
Proof.
  unfold target_text. split.
  - intros F. rewrite (join_in_alphabet _ F). split; [|by apply digit_values_back].
    clear F. induction (targetCode g) as [|t code IH]; [done|]. simpl. by rewrite IH.
  - apply join_outside.
Qed.

Lemma target_text_roundtrip_witness :
  Forall in_alphabet (targetCode new_1) ∧
  map digit_value (list_ascii_of_string (target_text new_1)) = targetCode new_1 ∧
  target_text new_1 = "253"%string ∧
  target_text (Js.new_game (-6)) = EmptyString.
Proof.
  assert (Forall in_alphabet (targetCode new_1)) as F.
  { assert (targetCode new_1 = [2; 5; 3]) as -> by (vm_compute; reflexivity).
    unfold in_alphabet; change charset_length with 10.
    repeat apply Forall_cons_2; try apply Forall_nil_2; lia. }
  split; [exact F|]. split.
  - exact (proj2 (proj1 (target_text_roundtrip new_1) F)).
  - split; vm_compute; reflexivity.
Defined.

Lemma substring_all s : substring 0 (String.length s) s = s.
Proof. induction s as [|c s IH]; [done|]. simpl. by rewrite IH. Qed.

Lemma typing_frames text runs i :
  (String.length text - i < runs)%nat →
  MatrixAnimation.typing runs text i
  = map (λ k, MatrixAnimation.Show (substring 0 k text))
        (seq (i + 1) (String.length text - i))
    ++ [MatrixAnimation.Callback].
Proof.
  revert i. induction runs as [|runs IH]; intros i H; [lia|].
  simpl. destruct (Nat.ltb_spec i (String.length text)) as [Lt|Ge].
  - rewrite IH by lia.
    replace (String.length text - i)%nat with (S (String.length text - (i + 1)))
      by lia.
    simpl. do 3 f_equal. f_equal; lia.
  - by replace (String.length text - i)%nat with 0%nat by lia.
Qed.

(** X16.  [typeText(text, callback)] shows the prefixes of [text] of
    length 1, 2, ... up to the whole text, in this order, then calls
    back, once; it takes one run more than [text] has characters.  On
    the empty text it shows nothing and calls back at once. *)
Theorem typeText_frames (text : string) (runs : nat) :
  (String.length text < runs)%nat →
  MatrixAnimation.typing runs text 0
  = map (λ k, MatrixAnimation.Show (substring 0 k text))
        (seq 1 (String.length text))
    ++ [MatrixAnimation.Callback] ∧
  (text ≠ EmptyString →
   last (removelast (MatrixAnimation.typing runs text 0))
   = Some (MatrixAnimation.Show text)) ∧
  (text = EmptyString →
   MatrixAnimation.typing runs text 0 = [MatrixAnimation.Callback]).
Proof.
  intros H. rewrite typing_frames by lia.
  rewrite Nat.sub_0_r. split; [done|]. split.
  - intros N. rewrite removelast_last.
    destruct text as [|c s]; [done|].
    change (String.length (String c s)) with (S (String.length s)).
    rewrite seq_S, map_app. cbn [map]. rewrite last_snoc.
    do 2 f_equal. apply (substring_all (String c s)).
  - by intros ->.
Qed.

Lemma typeText_frames_witness :
  (String.length "Follow the white rabbit." < 25)%nat ∧
  length (MatrixAnimation.typing 25 "Follow the white rabbit." 0) = 25%nat ∧
  last (removelast (MatrixAnimation.typing 25 "Follow the white rabbit." 0))
  = Some (MatrixAnimation.Show "Follow the white rabbit.").
Proof.
  assert (String.length "Follow the white rabbit." < 25)%nat as H
    by (vm_compute; lia).
  split; [exact H|]. split; [vm_compute; reflexivity|].
  apply (proj1 (proj2 (typeText_frames "Follow the white rabbit." 25 H))).
  discriminate.
Defined.

Lemma dial_reaches d t :
  in_alphabet d → in_alphabet t → Nat.iter (dial_count d t) (turn 1) d = t.
Proof.
  intros Hd Ht. rewrite turn_iter by done. unfold dial_count.
  unfold in_alphabet in *. change charset_length with 10 in *.
  rewrite Z2Nat.id by (apply Z.mod_pos_bound; lia).
  rewrite Z.add_mod_idemp_r by lia.
  replace (d + (t - d)) with t by lia. apply Z.mod_small; lia.
Qed.

Lemma dial_count_bound d t : (dial_count d t < 10)%nat.
Proof.
  unfold dial_count. pose proof (Z.mod_pos_bound (t - d) 10 ltac:(lia)). lia.
Qed.

Lemma length_store {A} (arr : list A) i v : length (store arr i v) = length arr.
Proof. unfold store. destruct (i <? 0); [done|]. apply length_insert. Qed.

Lemma at_in_range {A} (arr : list A) i :
  0 ≤ i < Z.of_nat (length arr) → ∃ x, at_ arr i = Some x.
Proof.
  intros H. unfold at_. destruct (Z.ltb_spec i 0); [lia|].
  destruct (arr !! Z.to_nat i) as [x|] eqn:E; [by exists x|].
  apply lookup_ge_None in E. lia.
Qed.

Lemma all_flags_true (cs : list bool) :
  length cs = 3%nat → (∀ j, 0 ≤ j < 3 → at_ cs j = Some true) →
  forallb id cs = true.
Proof.
  intros L F. destruct cs as [|a [|b [|c [|? ?]]]]; try discriminate.
  pose proof (F 0 ltac:(lia)) as F0. pose proof (F 1 ltac:(lia)) as F1.
  pose proof (F 2 ltac:(lia)) as F2. unfold at_ in *; simpl in *.
  by simplify_eq.
Qed.

Section Opener.

(** [selectSlot(i)], [changeDigit(1)] and [confirmSlot()] of either
    variant, as functions on the state. *)
Variable sel : Z → LockPickerGame → LockPickerGame.
Variable chg conf : LockPickerGame → LockPickerGame.

Hypothesis sel_locked : ∀ g i,
  locked g → 0 ≤ i < 3 → sel i g = set_currentSlot i g.

Hypothesis chg_locked : ∀ g old,
  locked g → at_ (slots g) (currentSlot g) = Some old →
  slots (chg g) = store (slots g) (currentSlot g) (turn 1 old) ∧
  currentSlot (chg g) = currentSlot g ∧ locked (chg g) ∧
  targetCode (chg g) = targetCode g ∧
  length (correctSlots (chg g)) = length (correctSlots g) ∧
  (∀ j, j ≠ currentSlot g →
     at_ (correctSlots (chg g)) j = at_ (correctSlots g) j).

Hypothesis conf_correct : ∀ g,
  wf g → locked g → is_correct g = true →
  slots (conf g) = slots g ∧ targetCode (conf g) = targetCode g ∧
  correctSlots (conf g) = store (correctSlots g) (currentSlot g) true ∧
  wf (conf g) ∧
  (forallb id (correctSlots (conf g)) = true → unlocked (conf g) = true).

Hypothesis unlocked_stays : ∀ g,
  unlocked g = true → (∀ i, sel i g = g) ∧ chg g = g ∧ conf g = g.

Lemma chg_iter n g old :
  locked g → at_ (slots g) (currentSlot g) = Some old →
  slots (Nat.iter n chg g)
    = store (slots g) (currentSlot g) (Nat.iter n (turn 1) old) ∧
  currentSlot (Nat.iter n chg g) = currentSlot g ∧
  locked (Nat.iter n chg g) ∧
  targetCode (Nat.iter n chg g) = targetCode g ∧
  length (correctSlots (Nat.iter n chg g)) = length (correctSlots g) ∧
  (∀ j, j ≠ currentSlot g →
     at_ (correctSlots (Nat.iter n chg g)) j = at_ (correctSlots g) j).
Proof.
  intros L E. induction n as [|n (S & C & L' & T & Len & F)].
  - simpl. by rewrite (store_same _ _ _ E).
  - rewrite !Nat.iter_succ.
    destruct (chg_locked (Nat.iter n chg g) (Nat.iter n (turn 1) old) L')
      as (S' & C' & L'' & T' & Len' & F').
    { rewrite S, C. by eapply at_store_eq. }
    rewrite S', C', S, C, T', T, Len', Len, store_store.
    split_and!; try done.
    intros j N. rewrite F' by (by rewrite C). by apply F.
Qed.

Lemma chg_iter_unlocked n g : unlocked g = true → Nat.iter n chg g = g.
Proof.
  intros U. induction n as [|n IH]; [done|].
  rewrite Nat.iter_succ, IH. by apply unlocked_stays.
Qed.

(** The game [g0] to open, and the way slot [i] is opened: select it,
    step up to the target digit, confirm. *)
Variable g0 : LockPickerGame.

Definition opened (i : Z) (g : LockPickerGame) : LockPickerGame :=
  conf (Nat.iter (dial_count (default 0 (at_ (slots g0) i))
                             (default 0 (at_ (targetCode g0) i)))
                 chg (sel i g)).

Hypothesis g0_wf : wf g0.
Hypothesis g0_digits : Forall in_alphabet (slots g0).
Hypothesis g0_target : Forall in_alphabet (targetCode g0).
Hypothesis g0_flags : forallb id (correctSlots g0) = true → unlocked g0 = true.

(** Slots below [k] are flagged, slots from [k] on still show the
    digits of [g0]; or the lock is open already. *)
Definition progress (k : Z) (g : LockPickerGame) : Prop :=
  unlocked g = true ∨
  (locked g ∧ wf g ∧ targetCode g = targetCode g0 ∧
   (forallb id (correctSlots g) = true → unlocked g = true) ∧
   (∀ j, 0 ≤ j < k → at_ (correctSlots g) j = Some true) ∧
   (∀ j, k ≤ j < 3 → at_ (slots g) j = at_ (slots g0) j)).

Lemma g0_slot k :
  0 ≤ k < 3 →
  ∃ d t, at_ (slots g0) k = Some d ∧ in_alphabet d ∧
         at_ (targetCode g0) k = Some t ∧ in_alphabet t.
Proof.
  intros K. destruct g0_wf as (L1 & _ & L3 & _).
  destruct (at_in_range (slots g0) k) as [d Ed]; [lia|].
  destruct (at_in_range (targetCode g0) k) as [t Et]; [lia|].
  exists d, t. split_and!; try done.
  - unfold at_ in Ed. destruct (k <? 0); [done|].
    exact (Forall_lookup_1 _ _ _ _ g0_digits Ed).
  - unfold at_ in Et. destruct (k <? 0); [done|].
    exact (Forall_lookup_1 _ _ _ _ g0_target Et).
Qed.

Lemma opened_progress k g :
  0 ≤ k < 3 → progress k g → progress (k + 1) (opened k g).
Proof.
  intros K [U | (L & W & T & _ & F & S)]; unfold opened.
  { left. rewrite (proj1 (unlocked_stays g U) k), chg_iter_unlocked by done.
    by rewrite (proj2 (proj2 (unlocked_stays g U))). }
  destruct (g0_slot k K) as (d & t & Ed & Hd & Et & Ht).
  rewrite Ed, Et. simpl default.
  rewrite (sel_locked g k L K).
  set (g1 := set_currentSlot k g).
  assert (at_ (slots g1) (currentSlot g1) = Some d) as E1
    by (subst g1; simpl; rewrite S by lia; exact Ed).
  destruct (chg_iter (dial_count d t) g1 d L E1) as (S2 & C2 & L2 & T2 & Len2 & F2).
  rewrite dial_reaches in S2 by done. simpl in S2, C2, T2, Len2, F2.
  set (g2 := Nat.iter (dial_count d t) chg g1) in *.
  destruct W as (W1 & W2 & W3 & W4).
  assert (wf g2) as Wg2.
  { unfold wf. rewrite S2, length_store, Len2, T2, C2. split_and!; try done; lia. }
  assert (is_correct g2 = true) as I2.
  { unfold is_correct. rewrite S2, C2, T2, T, Et.
    rewrite (at_store_eq _ _ d) by (by rewrite S by lia).
    simpl. apply Z.eqb_refl. }
  destruct (conf_correct g2 Wg2 L2 I2) as (S3 & T3 & F3 & W3' & A3).
  destruct (unlocked (conf g2)) eqn:U3; [by left|right].
  rewrite C2 in F3.
  split; [done|]. split; [done|]. split; [by rewrite T3, T2|].
  split; [by rewrite U3|]. split.
  - intros j Hj. rewrite F3.
    destruct (decide (j = k)) as [->|N].
    + destruct (at_in_range (correctSlots g2) k) as [x Ex]; [lia|].
      by eapply at_store_eq.
    + rewrite at_store_ne by done. rewrite F2 by done. apply F. lia.
  - intros j Hj. rewrite S3, S2, at_store_ne by lia. apply S. lia.
Qed.

(** Opening the three slots in turn opens the lock. *)
Lemma opened_all :
  locked g0 → unlocked (opened 2 (opened 1 (opened 0 g0))) = true.
Proof.
  intros L.
  assert (progress 0 g0) as P0.
  { right. split_and!; try done. intros j ?; lia. }
  pose proof (opened_progress 0 _ ltac:(lia) P0) as P1.
  pose proof (opened_progress 1 _ ltac:(lia) P1) as P2.
  pose proof (opened_progress 2 _ ltac:(lia) P2) as P3.
  simpl in P1, P2, P3.
  destruct P3 as [U | (L3 & W3 & _ & A3 & F3 & _)]; [done|].
  apply A3, all_flags_true; [apply W3 | exact F3].
Qed.

End Opener.

Lemma Js_run_app a b g : JsEvents.run (a ++ b) g = JsEvents.run b (JsEvents.run a g).
Proof. apply foldl_app. Qed.

Lemma Ts_run_app a b g : TsEvents.run (a ++ b) g = TsEvents.run b (TsEvents.run a g).
Proof. apply foldl_app. Qed.

Lemma Js_run_replicate n e g :
  JsEvents.run (replicate n e) g = Nat.iter n (exec (JsEvents.handle e)) g.
Proof.
  revert g. induction n as [|n IH]; intros g; [done|].
  change (JsEvents.run (replicate (S n) e) g)
    with (JsEvents.run (replicate n e) (exec (JsEvents.handle e) g)).
  by rewrite IH, Nat.iter_succ_r.
Qed.

Lemma Ts_run_replicate n e g :
  TsEvents.run (replicate n e) g = Nat.iter n (exec (TsEvents.handle e)) g.
Proof.
  revert g. induction n as [|n IH]; intros g; [done|].
  change (TsEvents.run (replicate (S n) e) g)
    with (TsEvents.run (replicate n e) (exec (TsEvents.handle e) g)).
  by rewrite IH, Nat.iter_succ_r.
Qed.

Lemma Js_open_slot_run g0 i g :
  JsEvents.run (Js_open_slot g0 i) g
  = opened (λ i, exec (Js.selectSlot i)) (exec (Js.changeDigit 1))
           (exec Js.confirmSlot) g0 i g.
Proof.
  unfold Js_open_slot, opened.
  change (JsEvents.run (?e :: ?es) g) with (JsEvents.run es (exec (JsEvents.handle e) g)).
  by rewrite Js_run_app, Js_run_replicate.
Qed.

Lemma Ts_open_slot_run g0 i g :
  TsEvents.run (Ts_open_slot g0 i) g
  = opened (λ i, exec (Ts.selectSlot i)) (exec (Ts.changeDigit 1))
           (exec Ts.confirmSlot) g0 i g.
Proof.
  unfold Ts_open_slot, opened.
  change (TsEvents.run (?e :: ?es) g) with (TsEvents.run es (exec (TsEvents.handle e) g)).
  by rewrite Ts_run_app, Ts_run_replicate.
Qed.

Lemma Js_sel_locked g i :
  locked g → 0 ≤ i < 3 → exec (Js.selectSlot i) g = set_currentSlot i g.
Proof.
  unfold locked. intros L Hi. unfold_methods. rewrite L.
  destruct (Z.ltb_spec i 0), (Z.geb_spec i 3); try lia. done.
Qed.

Lemma Ts_sel_locked g i :
  locked g → 0 ≤ i < 3 → exec (Ts.selectSlot i) g = set_currentSlot i g.
Proof.
  unfold locked. intros L Hi. unfold_methods. rewrite L.
  destruct (Z.ltb_spec i 0), (Z.geb_spec i 3); try lia. done.
Qed.

Lemma Js_chg_locked g old :
  locked g → at_ (slots g) (currentSlot g) = Some old →
  slots (exec (Js.changeDigit 1) g) = store (slots g) (currentSlot g) (turn 1 old) ∧
  currentSlot (exec (Js.changeDigit 1) g) = currentSlot g ∧
  locked (exec (Js.changeDigit 1) g) ∧
  targetCode (exec (Js.changeDigit 1) g) = targetCode g ∧
  length (correctSlots (exec (Js.changeDigit 1) g)) = length (correctSlots g) ∧
  (∀ j, j ≠ currentSlot g →
     at_ (correctSlots (exec (Js.changeDigit 1) g)) j = at_ (correctSlots g) j).
Proof.
  intros L E. rewrite (Js_changeDigit_exec _ _ _ L E). simpl.
  split_and!; try done; [apply length_store|].
  intros j N. by apply at_store_ne.
Qed.

Lemma Ts_chg_locked g old :
  locked g → at_ (slots g) (currentSlot g) = Some old →
  slots (exec (Ts.changeDigit 1) g) = store (slots g) (currentSlot g) (turn 1 old) ∧
  currentSlot (exec (Ts.changeDigit 1) g) = currentSlot g ∧
  locked (exec (Ts.changeDigit 1) g) ∧
  targetCode (exec (Ts.changeDigit 1) g) = targetCode g ∧
  length (correctSlots (exec (Ts.changeDigit 1) g)) = length (correctSlots g) ∧
  (∀ j, j ≠ currentSlot g →
     at_ (correctSlots (exec (Ts.changeDigit 1) g)) j = at_ (correctSlots g) j).
Proof.
  intros L E. by rewrite (Ts_changeDigit_exec _ _ _ L E).
Qed.

Lemma Js_conf_correct g :
  wf g → locked g → is_correct g = true →
  slots (exec Js.confirmSlot g) = slots g ∧
  targetCode (exec Js.confirmSlot g) = targetCode g ∧
  correctSlots (exec Js.confirmSlot g) = store (correctSlots g) (currentSlot g) true ∧
  wf (exec Js.confirmSlot g) ∧
  (forallb id (correctSlots (exec Js.confirmSlot g)) = true →
   unlocked (exec Js.confirmSlot g) = true).
Proof.
  intros W L I.
  pose proof (Js_handle_wf JsEvents.Confirm g W) as W'. simpl in W'.
  split_and!; [| | |exact W'|]; clear W'; revert I; unfold is_correct.
  all: explode g; unfold locked in L; simpl in L; subst.
  all: unfold_methods; crunch; try done; congruence.
Qed.

Lemma Ts_conf_correct g :
  wf g → locked g → is_correct g = true →
  slots (exec Ts.confirmSlot g) = slots g ∧
  targetCode (exec Ts.confirmSlot g) = targetCode g ∧
  correctSlots (exec Ts.confirmSlot g) = store (correctSlots g) (currentSlot g) true ∧
  wf (exec Ts.confirmSlot g) ∧
  (forallb id (correctSlots (exec Ts.confirmSlot g)) = true →
   unlocked (exec Ts.confirmSlot g) = true).
Proof.
  intros W L I.
  pose proof (Ts_handle_wf TsEvents.Confirm g W) as W'. simpl in W'.
  split_and!; [| | |exact W'|]; clear W'; revert I; unfold is_correct.
  all: explode g; unfold locked in L; simpl in L; subst.
  all: unfold_methods; crunch; try done; congruence.
Qed.

Lemma Js_unlocked_stays g :
  unlocked g = true →
  (∀ i, exec (Js.selectSlot i) g = g) ∧
  exec (Js.changeDigit 1) g = g ∧ exec Js.confirmSlot g = g.
Proof. intros U. unfold_methods. by rewrite U. Qed.

Lemma Ts_unlocked_stays g :
  unlocked g = true →
  (∀ i, exec (Ts.selectSlot i) g = g) ∧
  exec (Ts.changeDigit 1) g = g ∧ exec Ts.confirmSlot g = g.
Proof. intros U. unfold_methods. by rewrite U. Qed.

Lemma open_slot_valid_Js g i : Forall JsEvents.valid (Js_open_slot g i).
Proof.
  unfold Js_open_slot. apply Forall_cons_2; [exact I|].
  apply Forall_app_2; [|by repeat constructor].
  apply Forall_replicate. by left.
Qed.

Lemma open_slot_valid_Ts g i : Forall TsEvents.valid (Ts_open_slot g i).
Proof.
  unfold Ts_open_slot. apply Forall_cons_2; [exact I|].
  apply Forall_app_2; [|by repeat constructor].
  apply Forall_replicate. by left.
Qed.

Lemma open_slot_length_Js g i : (length (Js_open_slot g i) ≤ 11)%nat.
Proof.
  unfold Js_open_slot. simpl. rewrite length_app, length_replicate. simpl.
  pose proof (dial_count_bound (default 0 (at_ (slots g) i))
                               (default 0 (at_ (targetCode g) i))). lia.
Qed.

Lemma open_slot_length_Ts g i : (length (Ts_open_slot g i) ≤ 11)%nat.
Proof.
  unfold Ts_open_slot. simpl. rewrite length_app, length_replicate. simpl.
  pose proof (dial_count_bound (default 0 (at_ (slots g) i))
                               (default 0 (at_ (targetCode g) i))). lia.
Qed.

(** X17.  From every reachable locked state whose target digits are in
    [0, 10), selecting each slot in turn, stepping its digit up to the
    target digit and confirming opens the lock, in at most 33 events.
    Both variants. *)
Theorem lock_can_be_opened (seed : Z) (g : LockPickerGame) :
  locked g → Forall in_alphabet (targetCode g) →
  (JsEvents.reachable seed g →
   Forall JsEvents.valid (Js_open_lock g) ∧
   (length (Js_open_lock g) ≤ 33)%nat ∧
   unlocked (JsEvents.run (Js_open_lock g) g) = true) ∧
  (TsEvents.reachable seed g →
   Forall TsEvents.valid (Ts_open_lock g) ∧
   (length (Ts_open_lock g) ≤ 33)%nat ∧
   unlocked (TsEvents.run (Ts_open_lock g) g) = true).
Proof.
  intros L T. split; intros R.
  - split; [|split].
    + unfold Js_open_lock. repeat apply Forall_app_2; apply open_slot_valid_Js.
    + unfold Js_open_lock. rewrite !length_app.
      pose proof (open_slot_length_Js g 0). pose proof (open_slot_length_Js g 1).
      pose proof (open_slot_length_Js g 2). lia.
    + unfold Js_open_lock. rewrite !Js_run_app, !Js_open_slot_run.
      apply opened_all; try done.
      * apply Js_sel_locked. * apply Js_chg_locked. * apply Js_conf_correct.
      * apply Js_unlocked_stays. * by eapply Js_reachable_wf.
      * by eapply Js_reachable_digits.
      * by destruct (Js_reachable_inv _ _ R) as (_ & _ & A & _).
  - split; [|split].
    + unfold Ts_open_lock. repeat apply Forall_app_2; apply open_slot_valid_Ts.
    + unfold Ts_open_lock. rewrite !length_app.
      pose proof (open_slot_length_Ts g 0). pose proof (open_slot_length_Ts g 1).
      pose proof (open_slot_length_Ts g 2). lia.
    + unfold Ts_open_lock. rewrite !Ts_run_app, !Ts_open_slot_run.
      apply opened_all; try done.
      * apply Ts_sel_locked. * apply Ts_chg_locked. * apply Ts_conf_correct.
      * apply Ts_unlocked_stays. * by eapply Ts_reachable_wf.
      * by eapply Ts_reachable_digits.
      * by destruct (Ts_reachable_inv _ _ R) as (_ & [A1 A2]).
Qed.

Lemma lock_can_be_opened_witness :
  locked new_1 ∧ Forall in_alphabet (targetCode new_1) ∧
  JsEvents.reachable 1 new_1 ∧
  unlocked (JsEvents.run (Js_open_lock new_1) new_1) = true ∧
  length (Js_open_lock new_1) = 16%nat.
Proof.
  assert (locked new_1) as L by (vm_compute; reflexivity).
  assert (Forall in_alphabet (targetCode new_1)) as F.
  { assert (targetCode new_1 = [2; 5; 3]) as -> by (vm_compute; reflexivity).
    unfold in_alphabet; change charset_length with 10.
    repeat apply Forall_cons_2; try apply Forall_nil_2; lia. }
  assert (JsEvents.reachable 1 new_1) as R by constructor.
  split; [exact L|]. split; [exact F|]. split; [exact R|]. split.
  - exact (proj2 (proj2 (proj1 (lock_can_be_opened 1 new_1 L F) R))).
  - vm_compute. reflexivity.
Defined.

Lemma unlock_sounds_app a b : unlock_sounds (a ++ b) = (unlock_sounds a + unlock_sounds b)%nat.
Proof. unfold unlock_sounds. by rewrite filter_app, length_app. Qed.

Lemma Js_handle_unlock_sound e g :
  wf g → locked g → e ≠ JsEvents.Reset →
  unlock_sounds (calls (JsEvents.handle e) g)
  = if unlocked (exec (JsEvents.handle e) g) then 1%nat else 0%nat.
Proof.
  intros W L N. unfold calls.
  destruct e as [i|d| | |]; try done; simpl JsEvents.handle.
  all: explode g; unfold locked in L; simpl in L; subst.
  all: unfold_methods; unfold every; crunch; done.
Qed.

Lemma Ts_handle_unlock_sound e g :
  wf g → locked g → e ≠ TsEvents.Reset →
  unlock_sounds (calls (TsEvents.handle e) g)
  = if unlocked (exec (TsEvents.handle e) g) then 1%nat else 0%nat.
Proof.
  intros W L N. unfold calls.
  destruct e as [i|d| |]; try done; simpl TsEvents.handle.
  all: explode g; unfold locked in L; simpl in L; subst.
  all: unfold_methods; crunch; done.
Qed.

Lemma Js_log_unlocked es g :
  unlocked g = true → Forall (λ e, e ≠ JsEvents.Reset) es → Js_log es g = [].
Proof.
  intros U F. induction F as [|e es N _ IH]; [done|].
  simpl. unfold calls, exec. by rewrite (Js_handle_unlocked e g U N).
Qed.

Lemma Ts_log_unlocked es g :
  unlocked g = true → Forall (λ e, e ≠ TsEvents.Reset) es → Ts_log es g = [].
Proof.
  intros U F. induction F as [|e es N _ IH]; [done|].
  simpl. unfold calls, exec. by rewrite (Ts_handle_unlocked e g U N).
Qed.

Lemma Js_log_unlock_sounds es g :
  wf g → locked g → Forall (λ e, e ≠ JsEvents.Reset) es →
  unlock_sounds (Js_log es g)
  = if unlocked (JsEvents.run es g) then 1%nat else 0%nat.
Proof.
  intros W L F. revert g W L. induction F as [|e es N F IH]; intros g W L.
  { simpl. by rewrite L. }
  change (JsEvents.run (e :: es) g)
    with (JsEvents.run es (exec (JsEvents.handle e) g)).
  simpl. rewrite unlock_sounds_app, (Js_handle_unlock_sound e g W L N).
  destruct (unlocked (exec (JsEvents.handle e) g)) eqn:U.
  - by rewrite (Js_log_unlocked es _ U F), (Js_run_unlocked es _ U F), U.
  - rewrite IH; [done| by apply Js_handle_wf | done].
Qed.

Lemma Ts_log_unlock_sounds es g :
  wf g → locked g → Forall (λ e, e ≠ TsEvents.Reset) es →
  unlock_sounds (Ts_log es g)
  = if unlocked (TsEvents.run es g) then 1%nat else 0%nat.
Proof.
  intros W L F. revert g W L. induction F as [|e es N F IH]; intros g W L.
  { simpl. by rewrite L. }
  change (TsEvents.run (e :: es) g)
    with (TsEvents.run es (exec (TsEvents.handle e) g)).
  simpl. rewrite unlock_sounds_app, (Ts_handle_unlock_sound e g W L N).
  destruct (unlocked (exec (TsEvents.handle e) g)) eqn:U.
  - by rewrite (Ts_log_unlocked es _ U F), (Ts_run_unlocked es _ U F), U.
  - rewrite IH; [done| by apply Ts_handle_wf | done].
Qed.

(** X18.  From a reachable locked state, through any sequence of inputs
    without a reset, the unlock sound is played once if the lock ends up
    open and never otherwise.  Both variants. *)
Theorem unlock_sound_plays_once (seed : Z) (g : LockPickerGame) :
  locked g →
  (JsEvents.reachable seed g →
   ∀ es, Forall (λ e, e ≠ JsEvents.Reset) es →
     unlock_sounds (Js_log es g)
     = if unlocked (JsEvents.run es g) then 1%nat else 0%nat) ∧
  (TsEvents.reachable seed g →
   ∀ es, Forall (λ e, e ≠ TsEvents.Reset) es →
     unlock_sounds (Ts_log es g)
     = if unlocked (TsEvents.run es g) then 1%nat else 0%nat).
Proof.
  intros L. split; intros R es F.
  - apply Js_log_unlock_sounds; [by eapply Js_reachable_wf | done | done].
  - apply Ts_log_unlock_sounds; [by eapply Ts_reachable_wf | done | done].
Qed.

Lemma unlock_sound_plays_once_witness :
  locked new_1 ∧ JsEvents.reachable 1 new_1 ∧
  unlock_sounds (Js_log (confirm_2_5_3 ++ [JsEvents.Confirm; JsEvents.CheckCombination])
                        new_1) = 1%nat.
Proof.
  assert (locked new_1) as L by (vm_compute; reflexivity).
  assert (JsEvents.reachable 1 new_1) as R by constructor.
  split; [exact L|]. split; [exact R|].
  rewrite (proj1 (unlock_sound_plays_once 1 new_1 L) R).
  - vm_compute. reflexivity.
  - vm_compute. repeat (apply Forall_cons_2; [discriminate|]). apply Forall_nil_2.
Defined.

Lemma generator_bounds_witness :
  exact_doubles (SeededRandom.mk (-6)) ∧ 1 ≤ 10 ≤ 2 ^ 53 ∧
  -10 ≤ (SeededRandom.nextInt 10 (SeededRandom.mk (-6))).1 < 10 ∧
  (SeededRandom.nextInt 10 (SeededRandom.mk (-6))).1 = -1.
Proof.
  assert (exact_doubles (SeededRandom.mk (-6))) as E by (vm_compute; discriminate).
  assert (1 ≤ 10 ≤ 2 ^ 53) as M by (split; vm_compute; discriminate).
  split; [exact E|]. split; [exact M|].
  split; [exact (proj2 (proj2 (proj2 (proj2
            (generator_bounds (SeededRandom.mk (-6)) 10 E M)))))|].
  vm_compute. reflexivity.
Defined.

Lemma inputs_keep_target_and_generator_witness :
  Forall (λ e, e ≠ JsEvents.Reset) confirm_2_5_3 ∧
  targetCode opened_1 = targetCode new_1 ∧ random opened_1 = random new_1.
Proof.
  assert (Forall (λ e, e ≠ JsEvents.Reset) confirm_2_5_3) as F.
  { vm_compute. repeat (apply Forall_cons_2; [discriminate|]). apply Forall_nil_2. }
  split; [exact F|].
  exact (proj1 (inputs_keep_target_and_generator new_1) confirm_2_5_3 F).
Defined.

Lemma handleInputReport_shape_witness :
  WebHIDAdapter.handleInputReport [] = [LogReport []] ∧
  WebHIDAdapter.handleInputReport [17; 1] = [LogReport [17; 1]; OnSlotSelect 1].
Proof.
  destruct (handleInputReport_shape []) as (cs & E & _ & N & _).
  split; [by rewrite E, (N eq_refl)|].
  vm_compute. reflexivity.
Defined.
